(** * folder-diff-restore: a shallow embedding of [createDiff] and [restoreDiff]

    The library builds a "diff folder" out of two directory trees and replays
    it onto a target tree.  Both functions are sequences of [fs-extra] calls,
    so the embedding consists of

    - a POSIX-like file system: a finite map from canonical absolute paths to
      entries (regular file, symbolic link, directory), with path resolution
      that follows symbolic links;
    - the [fs-extra] / [path] primitives the two functions call;
    - a small state-and-error monad that also records the trace of calls;
    - [createDiff] (src/createDiff.ts, as printed in prompts/original.md) and
      [restoreDiff] (src/restoreDiff.ts), translated statement by statement.

    The external comparator ([dir-compare]) is a parameter of [createDiff]. *)

From Stdlib Require Import Ascii String.
From stdpp Require Import gmap strings list fin_maps fin_sets.

Open Scope string_scope.
Open Scope list_scope.

(* ================================================================== *)
(** * Paths *)
(* ================================================================== *)

(** A location in the file system is an absolute path, kept as the list of
    its components: ["/tmp/a/b"] is [["tmp"; "a"; "b"]] and the root is [[]].
    A path that ends with a slash keeps it as a last, empty component:
    ["/tmp/a/"] is [["tmp"; "a"; ""]].
    Strings that the program reads as data (symlink targets, the names in a
    comparison entry, the items of the manifest) stay strings. *)
Abbreviation path := (list string).

(** [s.split("/")] *)
Fixpoint split_slash (s : string) : list string :=
  match s with
  | EmptyString => [""]
  | String c s' =>
      match split_slash s' with
      | h :: t => if Ascii.eqb c "/"%char then "" :: h :: t else String c h :: t
      | [] => [String c ""]
      end
  end.

Definition is_absolute (s : string) : bool :=
  match s with
  | String c _ => Ascii.eqb c "/"%char
  | EmptyString => false
  end.

(** Components that name nothing: the empty component (doubled or trailing
    slash) and ["."]. *)
Definition skip_seg (s : string) : bool :=
  bool_decide (s = "") || bool_decide (s = ".").

(** The directory a component was found in. *)
Definition parent (p : path) : path := removelast p.

(** A path without the slashes it ends with. *)
Fixpoint strip_slash (p : path) : path :=
  match p with
  | [] => []
  | s :: rest =>
      match strip_slash rest with
      | [] => if bool_decide (s = "") then [] else [s]
      | r => s :: r
      end
  end.

(** [path.dirname] on a location; trailing slashes are not counted. *)
Definition dirname (p : path) : path := removelast (strip_slash p).

(** Lexical normalisation of an absolute path, as [path.normalize] does it:
    empty and ["."] components vanish, [".."] drops the component before it
    (and vanishes at the root). *)
Fixpoint norm_abs (cur : path) (segs : list string) : path :=
  match segs with
  | [] => cur
  | s :: rest =>
      if skip_seg s then norm_abs cur rest
      else if bool_decide (s = "..") then norm_abs (parent cur) rest
      else norm_abs (cur ++ [s]) rest
  end.

(** [path.join(base, rel)] where [base] is a location. *)
Definition path_join (base : path) (segs : list string) : path :=
  norm_abs [] (base ++ segs).

Definition ends_with_slash (s : string) : bool :=
  match reverse (split_slash s) with
  | last :: _ :: _ => bool_decide (last = "")
  | _ => false
  end.

(** [path.join(base, s)] for a string read as data.  [path.normalize] keeps
    the slash at the end of its argument, unless the result is the root. *)
Definition path_join_str (base : path) (s : string) : path :=
  let p := path_join base (split_slash s) in
  if ends_with_slash s && negb (bool_decide (p = [])) then p ++ [""] else p.

(** [path.relative(from, to)] on locations: the common prefix is dropped, one
    [".."] climbs out of each remaining component of [from]. *)
Fixpoint path_relative (from to : path) : list string :=
  match from, to with
  | f :: from', t :: to' =>
      if bool_decide (f = t) then path_relative from' to'
      else replicate (length from) ".." ++ to
  | _, _ => replicate (length from) ".." ++ to
  end.

(** [path.join] of two strings, with a string as result (this is what ends up
    in the manifest): the arguments are joined with a slash and normalised;
    a relative result keeps the [".."] it cannot resolve, the empty result
    is ["."]. *)
Fixpoint norm_rel (abs : bool) (stack : list string) (segs : list string)
  : list string :=
  match segs with
  | [] => stack
  | s :: rest =>
      if skip_seg s then norm_rel abs stack rest
      else if bool_decide (s = "..") then
        match reverse stack with
        | top :: _ =>
            if bool_decide (top = "..") then norm_rel abs (stack ++ [s]) rest
            else norm_rel abs (removelast stack) rest
        | [] =>
            if abs then norm_rel abs stack rest
            else norm_rel abs (stack ++ [s]) rest
        end
      else norm_rel abs (stack ++ [s]) rest
  end.

Fixpoint join_slash (l : list string) : string :=
  match l with
  | [] => ""
  | [s] => s
  | s :: rest => s +:+ "/" +:+ join_slash rest
  end.

Definition posix_normalize (s : string) : string :=
  let abs := is_absolute s in
  let segs := norm_rel abs [] (split_slash s) in
  let body := join_slash segs in
  let body :=
    if bool_decide (segs = []) then
      (if abs then "" else if ends_with_slash s then "./" else ".")
    else if ends_with_slash s then body +:+ "/" else body in
  if abs then "/" +:+ body else body.

Definition posix_join (a b : string) : string :=
  if bool_decide (a = "") then
    (if bool_decide (b = "") then "." else posix_normalize b)
  else if bool_decide (b = "") then posix_normalize a
  else posix_normalize (a +:+ "/" +:+ b).

(* ================================================================== *)
(** * The file system *)
(* ================================================================== *)

(** JSON values, for the manifest. *)
#[local] Unset Elimination Schemes.
Inductive json :=
| JNull
| JBool (b : bool)
| JNum (n : Z)
| JStr (s : string)
| JArr (items : list json)
| JObj (fields : list (string * json)).
#[local] Set Elimination Schemes.

(** The content of a regular file.  A file whose bytes are the JSON text of
    [j] is [Json j] (so [writeJson] then [readJson] gives [j] back); any
    other file is [Bytes].  [readJson] on [Bytes] is a parse error. *)
Inductive data :=
| Bytes (s : string)
| Json (j : json).

Inductive entry :=
| EFile (d : data)
| ELink (target : string)
| EDir.

(** The three tests on a [Stats] object. *)
Definition isSymbolicLink (stats : entry) : bool :=
  match stats with ELink _ => true | _ => false end.
Definition isDirectory (stats : entry) : bool :=
  match stats with EDir => true | _ => false end.
Definition isFile (stats : entry) : bool :=
  match stats with EFile _ => true | _ => false end.

(** The file system maps the canonical location of every existing entry to
    that entry; the root directory [[]] always exists and is not stored. *)
Abbreviation FS := (gmap (list string) entry).

Definition lookup_entry (fs : FS) (p : path) : option entry :=
  match p with
  | [] => Some EDir
  | _ => fs !! p
  end.

Inductive errno :=
| ENOENT | ENOTDIR | EEXIST | EISDIR | ELOOP | EINVAL
| EJSON       (* [JSON.parse] rejects the bytes *)
| ECONFLICT   (* fs-extra: "Cannot overwrite (non-)directory with ..." *)
| ESAME       (* fs-extra: "Source and destination must not be the same." *)
| ESUBDIR.    (* fs-extra: "Cannot copy ... to a subdirectory of itself" *)

(** ** Path resolution

    The components of [todo] are walked from the directory [cur].  A symbolic
    link met on the way is replaced by the components of its target, which
    are walked from the link's directory (from the root for an absolute
    target).  The last component may be missing: the result is then the
    location where it would be created.  With [follow_last = false] a link in
    last position is not followed ([lstat], [readlink], [unlink], [symlink]).
    [jump] continues after a link; it carries the bound on the number of
    links followed (Linux gives ELOOP after 40). *)
Fixpoint resolve_with (fs : FS) (follow_last : bool)
    (jump : path → list string → errno + path)
    (cur : path) (todo : list string) : errno + path :=
  match todo with
  | [] => inr cur
  | seg :: rest =>
      if skip_seg seg then resolve_with fs follow_last jump cur rest
      else if bool_decide (seg = "..") then
        resolve_with fs follow_last jump (parent cur) rest
      else
        let p := cur ++ [seg] in
        match fs !! p with
        | None =>
            if bool_decide (rest = []) then inr p else inl ENOENT
        | Some (EFile _) =>
            if bool_decide (rest = []) then inr p else inl ENOTDIR
        | Some EDir => resolve_with fs follow_last jump p rest
        | Some (ELink t) =>
            if bool_decide (rest = []) && negb follow_last then inr p
            else if bool_decide (t = "") then inl ENOENT
            else jump (if is_absolute t then [] else cur)
                      (split_slash t ++ rest)
        end
  end.

Fixpoint resolve_links (fs : FS) (follow_last : bool) (n : nat)
  : path → list string → errno + path :=
  match n with
  | 0 => resolve_with fs follow_last (λ _ _, inl ELOOP)
  | S n' => resolve_with fs follow_last (resolve_links fs follow_last n')
  end.

Definition MAXSYMLINKS : nat := 40.

Definition resolve (fs : FS) (follow_last : bool) (p : path) : errno + path :=
  resolve_links fs follow_last MAXSYMLINKS [] p.

(** ** System calls, as functions of the file system *)

(** [lstat]: the entry at [p] itself. *)
Definition lstat_fs (fs : FS) (p : path) : errno + entry :=
  match resolve fs false p with
  | inl e => inl e
  | inr c =>
      match lookup_entry fs c with
      | Some en => inr en
      | None => inl ENOENT
      end
  end.

(** [stat]: the entry [p] leads to, through links. *)
Definition stat_fs (fs : FS) (p : path) : errno + entry :=
  match resolve fs true p with
  | inl e => inl e
  | inr c =>
      match lookup_entry fs c with
      | Some en => inr en
      | None => inl ENOENT
      end
  end.

(** [fs.pathExists] is [fs.access(p).then(() => true).catch(() => false)]:
    it follows links, so a dangling link does not exist for it. *)
Definition pathExists_fs (fs : FS) (p : path) : bool :=
  match stat_fs fs p with
  | inr _ => true
  | inl _ => false
  end.

Definition readlink_fs (fs : FS) (p : path) : errno + string :=
  match lstat_fs fs p with
  | inl e => inl e
  | inr (ELink t) => inr t
  | inr _ => inl EINVAL
  end.

(** The names in the directory at canonical location [c]. *)
Definition child_name (c k : path) : option string :=
  match reverse k with
  | n :: rparent => if bool_decide (reverse rparent = c) then Some n else None
  | [] => None
  end.

Definition child_names (fs : FS) (c : path) : gset string :=
  set_omap (child_name c) (dom fs).

(** [readdir]: the order of the names is the file system's business; here it
    is the order in which the set of names enumerates. *)
Definition readdir_fs (fs : FS) (p : path) : errno + list string :=
  match resolve fs true p with
  | inl e => inl e
  | inr c =>
      match lookup_entry fs c with
      | Some EDir => inr (elements (child_names fs c))
      | Some _ => inl ENOTDIR
      | None => inl ENOENT
      end
  end.

(** Deleting the entry at canonical location [c] with all below it. *)
Definition delete_tree (c : path) (fs : FS) : FS :=
  filter (λ kv, ¬ c `prefix_of` kv.1) fs.

(** [fs.remove] is [rm -rf]: the entry itself goes (a link is not followed),
    a missing path is no error.  For a link written with a slash after it,
    [lstat] answers for the directory the link leads to, [rmdir] on the path
    is then rejected with ENOTDIR, and [rm] takes that as done: nothing is
    removed. *)
Definition remove_fs (fs : FS) (p : path) : errno + FS :=
  let slashed_link :=
    negb (bool_decide (strip_slash p = p)) &&
    match lstat_fs fs (strip_slash p) with
    | inr (ELink _) => true
    | _ => false
    end in
  if slashed_link then
    match stat_fs fs p with
    | inr _ => inr fs
    | inl ENOENT => inr fs
    | inl e => inl e
    end
  else
    match resolve fs false p with
    | inl ENOENT => inr fs
    | inl e => inl e
    | inr c =>
        match lookup_entry fs c with
        | Some _ => inr (delete_tree c fs)
        | None => inr fs
        end
    end.

(** [unlink]: removes a file or a link, not a directory. *)
Definition unlink_fs (fs : FS) (p : path) : errno + FS :=
  match resolve fs false p with
  | inl e => inl e
  | inr c =>
      match lookup_entry fs c with
      | Some EDir => inl EISDIR
      | Some _ => inr (delete c fs)
      | None => inl ENOENT
      end
  end.

(** [mkdir] of one directory whose parent exists. *)
Definition mkdir_fs (fs : FS) (p : path) : errno + FS :=
  match resolve fs false p with
  | inl e => inl e
  | inr c =>
      match lookup_entry fs c with
      | Some _ => inl EEXIST
      | None => inr (<[c := EDir]> fs)
      end
  end.

(** [fs.ensureDir] is [mkdir -p]: every prefix of [p] that does not lead to
    a directory is created; a prefix that exists and is no directory (a
    file, a link to a file, a dangling link) is an error. *)
Definition ensure_prefix (last : bool) (fs : FS) (q : path) : errno + FS :=
  match stat_fs fs q with
  | inr EDir => inr fs
  | inr _ => inl (if last then EEXIST else ENOTDIR)
  | inl ENOENT =>
      match mkdir_fs fs q with
      | inl EEXIST => inl (if last then EEXIST else ENOTDIR)
      | r => r
      end
  | inl e => inl e
  end.

Fixpoint ensure_prefixes (fs : FS) (done : path) (todo : list string)
  : errno + FS :=
  match todo with
  | [] => inr fs
  | s :: rest =>
      match ensure_prefix (bool_decide (rest = [])) fs (done ++ [s]) with
      | inl e => inl e
      | inr fs' => ensure_prefixes fs' (done ++ [s]) rest
      end
  end.

Definition ensureDir_fs (fs : FS) (p : path) : errno + FS :=
  ensure_prefixes fs [] p.

(** [fs.symlink(target, p)]: fails if anything, a dangling link included,
    is at [p]. *)
Definition symlink_fs (fs : FS) (target : string) (p : path) : errno + FS :=
  match resolve fs false p with
  | inl e => inl e
  | inr c =>
      match lookup_entry fs c with
      | Some _ => inl EEXIST
      | None => inr (<[c := ELink target]> fs)
      end
  end.

(** Opening [p] for writing ([O_WRONLY|O_CREAT|O_TRUNC]) follows links: the
    bytes land in the file the path leads to, which is created if its
    directory exists. *)
Definition write_fs (fs : FS) (p : path) (d : data) : errno + FS :=
  match resolve fs true p with
  | inl e => inl e
  | inr c =>
      match lookup_entry fs c with
      | Some EDir => inl EISDIR
      | Some (ELink _) => inl ELOOP
      | _ => inr (<[c := EFile d]> fs)
      end
  end.

Definition read_fs (fs : FS) (p : path) : errno + data :=
  match stat_fs fs p with
  | inl e => inl e
  | inr (EFile d) => inr d
  | inr _ => inl EISDIR
  end.

(** [fs.copyFile(src, dest)] *)
Definition copyFile_fs (fs : FS) (src dest : path) : errno + FS :=
  match read_fs fs src with
  | inl e => inl e
  | inr d => write_fs fs dest d
  end.

(** [fs.copy(src, dest, {dereference: false})] of fs-extra: both ends are
    looked at with [lstat]; a directory is created if absent and its items
    are copied in turn; a file replaces whatever non-directory is at [dest];
    a link is recreated with the target string it has.  [fuel] bounds the
    depth of the recursion. *)
Definition lstat_opt (fs : FS) (p : path) : errno + option entry :=
  match lstat_fs fs p with
  | inr en => inr (Some en)
  | inl ENOENT => inr None
  | inl e => inl e
  end.

Definition same_inode (fs : FS) (p q : path) : bool :=
  match resolve fs false p, resolve fs false q with
  | inr c1, inr c2 => bool_decide (c1 = c2)
  | _, _ => false
  end.

Definition check_paths (fs : FS) (src dest : path)
  : errno + (entry * option entry) :=
  match lstat_fs fs src with
  | inl e => inl e
  | inr s =>
      match lstat_opt fs dest with
      | inl e => inl e
      | inr None =>
          if isDirectory s && bool_decide (src `prefix_of` dest)
          then inl ESUBDIR else inr (s, None)
      | inr (Some d) =>
          if same_inode fs src dest then inl ESAME
          else if isDirectory s && negb (isDirectory d)
          then inl ECONFLICT
          else if negb (isDirectory s) && isDirectory d
          then inl ECONFLICT
          else if isDirectory s && bool_decide (src `prefix_of` dest)
          then inl ESUBDIR
          else inr (s, Some d)
      end
  end.

Definition copy_link (fs : FS) (target : string) (dest : path)
    (dstat : option entry) : errno + FS :=
  match dstat with
  | None => symlink_fs fs target dest
  | Some (ELink _) =>
      match unlink_fs fs dest with
      | inl e => inl e
      | inr fs' => symlink_fs fs' target dest
      end
  | Some _ => symlink_fs fs target dest
  end.

Definition copy_file (fs : FS) (src dest : path) (dstat : option entry)
  : errno + FS :=
  match dstat with
  | None => copyFile_fs fs src dest
  | Some _ =>
      match unlink_fs fs dest with
      | inl e => inl e
      | inr fs' => copyFile_fs fs' src dest
      end
  end.

Fixpoint copy_items (f : FS → path → path → errno + FS) (fs : FS)
    (src dest : path) (items : list string) : errno + FS :=
  match items with
  | [] => inr fs
  | item :: rest =>
      match f fs (path_join src [item]) (path_join dest [item]) with
      | inl e => inl e
      | inr fs' => copy_items f fs' src dest rest
      end
  end.

Fixpoint copy_entry (fuel : nat) (fs : FS) (src dest : path) : errno + FS :=
  match fuel with
  | 0 => inl ELOOP
  | S fuel' =>
      match check_paths fs src dest with
      | inl e => inl e
      | inr (EDir, dstat) =>
          match (if dstat is None then mkdir_fs fs dest else inr fs) with
          | inl e => inl e
          | inr fs1 =>
              match readdir_fs fs1 src with
              | inl e => inl e
              | inr items => copy_items (copy_entry fuel') fs1 src dest items
              end
          end
      | inr (EFile _, dstat) => copy_file fs src dest dstat
      | inr (ELink t, dstat) => copy_link fs t dest dstat
      end
  end.

Definition copy_fs (fuel : nat) (fs : FS) (src dest : path) : errno + FS :=
  match check_paths fs src dest with
  | inl e => inl e
  | inr _ =>
      match (if pathExists_fs fs (dirname dest) then inr fs
             else ensureDir_fs fs (dirname dest)) with
      | inl e => inl e
      | inr fs1 => copy_entry fuel fs1 src dest
      end
  end.

Definition readJson_fs (fs : FS) (p : path) : errno + json :=
  match read_fs fs p with
  | inl e => inl e
  | inr (Json j) => inr j
  | inr (Bytes _) => inl EJSON
  end.

Definition writeJson_fs (fs : FS) (p : path) (j : json) : errno + FS :=
  write_fs fs p (Json j).

(* ================================================================== *)
(** * The comparator's result ([dir-compare]) *)
(* ================================================================== *)

Inductive DifferenceState := StEqual | StLeft | StRight | StDistinct.

Inductive DifferenceType := TMissing | TFile | TDirectory | TBrokenLink.

#[global] Instance DifferenceType_eq_dec : EqDecision DifferenceType.
Proof. solve_decision. Defined.

(** One entry of [diffSet].  The fields the code tests for presence are
    options: [None] is [undefined]. *)
Record Difference := {
  state : DifferenceState;
  name1 : option string;
  name2 : option string;
  relativePath : option string;
  type1 : DifferenceType;
  type2 : DifferenceType
}.

Record Result := { diffSet : option (list Difference) }.

Record DiffOptions := {
  compareSize : option bool;
  compareContent : option bool;
  compareSymlink : option bool
}.

Definition default_options : DiffOptions :=
  {| compareSize := Some true; compareContent := Some true;
     compareSymlink := Some true |}.

(** [compare] of dir-compare: it reads the two trees and resolves to a
    [Result] or rejects with a message. *)
Definition comparator : Type := FS → path → path → DiffOptions → string + Result.

(* ================================================================== *)
(** * Effects: state, errors and the trace of calls *)
(* ================================================================== *)

Inductive call :=
| CRemove (p : path)
| CEnsureDir (p : path)
| CSymlink (target : string) (p : path)
| CCopyFile (src dest : path)
| CCopy (src dest : path)
| CWriteJson (p : path) (j : json)
| CReadJson (p : path)
| CPathExists (p : path)
| CLstat (p : path)
| CReadlink (p : path)
| CReaddir (p : path).

(** What an observer of the process sees: each [fs-extra] call with the
    error it was rejected with, if any; the comparator being invoked; a line
    on [console.error].  ([debug] logging has no effect and is left out.) *)
Inductive event :=
| Called (c : call) (rejected : option errno)
| Compared (path1 path2 : path) (failed : bool)
| ConsoleError (p : path).

Inductive error :=
| FsError (c : call) (e : errno)
| ExternalError (msg : string)        (* whatever [compare] rejects with *)
| ComparisonError (cause : string)    (* "Error comparing directories: ..." *)
| EmptyResult                         (* "Comparison result is empty" *)
| InvalidEntry (d : Difference)       (* "Invalid entry in comparison result" *)
| InvalidRelativeFilePath (s : string)
| TypeError (what : string)
| OutOfFuel.

Record outcome (A : Type) := Outcome {
  trace : list event;
  final : FS;
  result : error + A
}.
Arguments Outcome {A} _ _ _.
Arguments trace {A} _.
Arguments final {A} _.
Arguments result {A} _.

Definition M (A : Type) : Type := FS → outcome A.

Definition ret {A} (a : A) : M A := λ fs, Outcome [] fs (inr a).

Definition throw {A} (e : error) : M A := λ fs, Outcome [] fs (inl e).

Definition bind {A B} (m : M A) (k : A → M B) : M B := λ fs,
  let o := m fs in
  match result o with
  | inl e => Outcome (trace o) (final o) (inl e)
  | inr a =>
      let o' := k a (final o) in
      Outcome (trace o ++ trace o') (final o') (result o')
  end.

(** [try { m } catch (error) { h error }] *)
Definition try_catch {A} (m : M A) (h : error → M A) : M A := λ fs,
  let o := m fs in
  match result o with
  | inr a => o
  | inl e =>
      let o' := h e (final o) in
      Outcome (trace o ++ trace o') (final o') (result o')
  end.

Notation "'let*' x ':=' m 'in' k" := (bind m (λ x, k))
  (at level 10, x name, m at level 100, k at level 200,
   format "'[v' 'let*'  x  ':='  m  'in' '/' k ']'").

(** [for (const x of l) body] *)
Fixpoint for_of {A} (l : list A) (body : A → M unit) : M unit :=
  match l with
  | [] => ret tt
  | x :: rest => let* _ := body x in for_of rest body
  end.

(** A loop that carries a local variable. *)
Fixpoint for_of_acc {A S} (l : list A) (body : A → S → M S) (s : S) : M S :=
  match l with
  | [] => ret s
  | x :: rest => let* s' := body x s in for_of_acc rest body s'
  end.

(** An [fs-extra] call that changes the file system.  A rejected call
    leaves the file system as it was.  This is exact for the calls that do
    one thing; a rejected [ensureDir] or [copy] may in fact leave behind the
    directories and entries it had created before it was rejected. *)
Definition fs_update (c : call) (f : FS → errno + FS) : M unit := λ fs,
  match f fs with
  | inl e => Outcome [Called c (Some e)] fs (inl (FsError c e))
  | inr fs' => Outcome [Called c None] fs' (inr tt)
  end.

(** An [fs-extra] call that reads it. *)
Definition fs_query {A} (c : call) (f : FS → errno + A) : M A := λ fs,
  match f fs with
  | inl e => Outcome [Called c (Some e)] fs (inl (FsError c e))
  | inr a => Outcome [Called c None] fs (inr a)
  end.

Definition remove (p : path) : M unit :=
  fs_update (CRemove p) (λ fs, remove_fs fs p).
Definition ensureDir (p : path) : M unit :=
  fs_update (CEnsureDir p) (λ fs, ensureDir_fs fs p).
Definition symlink (target : string) (p : path) : M unit :=
  fs_update (CSymlink target p) (λ fs, symlink_fs fs target p).
Definition copyFile (src dest : path) : M unit :=
  fs_update (CCopyFile src dest) (λ fs, copyFile_fs fs src dest).
Definition copy (fuel : nat) (src dest : path) : M unit :=
  fs_update (CCopy src dest) (λ fs, copy_fs fuel fs src dest).
Definition writeJson (p : path) (j : json) : M unit :=
  fs_update (CWriteJson p j) (λ fs, writeJson_fs fs p j).
Definition readJson (p : path) : M json :=
  fs_query (CReadJson p) (λ fs, readJson_fs fs p).
Definition pathExists (p : path) : M bool :=
  fs_query (CPathExists p) (λ fs, inr (pathExists_fs fs p)).
Definition lstat (p : path) : M entry :=
  fs_query (CLstat p) (λ fs, lstat_fs fs p).
Definition readlink (p : path) : M string :=
  fs_query (CReadlink p) (λ fs, readlink_fs fs p).
Definition readdir (p : path) : M (list string) :=
  fs_query (CReaddir p) (λ fs, readdir_fs fs p).

Definition console_error (p : path) : M unit := λ fs,
  Outcome [ConsoleError p] fs (inr tt).

(** The call of dir-compare's [compare]. *)
Definition dir_compare (compare : comparator) (path1 path2 : path)
    (options : DiffOptions) : M Result := λ fs,
  match compare fs path1 path2 options with
  | inl msg => Outcome [Compared path1 path2 true] fs (inl (ExternalError msg))
  | inr res => Outcome [Compared path1 path2 false] fs (inr res)
  end.

(* ================================================================== *)
(** * src/compareDirectories.ts *)
(* ================================================================== *)

Definition error_text (e : error) : string :=
  match e with
  | ExternalError msg => msg
  | ComparisonError msg => msg
  | _ => "Error"
  end.

Definition compareDirectories (compare : comparator) (path1 path2 : path)
    (options : DiffOptions) : M Result :=
  try_catch
    (let* res := dir_compare compare path1 path2 options in
     ret res)
    (λ error, throw (ComparisonError (error_text error))).

(* ================================================================== *)
(** * src/createDiff.ts *)
(* ================================================================== *)

Definition METADATA_NAME : string := "__folder-diff-metadata.json".

(** JavaScript truthiness of a possibly undefined string, and [a || b]. *)
Definition truthy (s : option string) : bool :=
  match s with
  | Some s => negb (bool_decide (s = ""))
  | None => false
  end.

Definition js_or (a b : option string) : option string :=
  if truthy a then a else b.

(** [isSymlink]: a failing [lstat] is caught, reported on the console and
    answered with [false]. *)
Definition isSymlink (filePath : path) : M bool :=
  try_catch
    (let* stats := lstat filePath in
     ret (isSymbolicLink stats))
    (λ error,
     let* _ := console_error filePath in
     ret false).

(** The body shared, statement for statement, by the cases ["right"] and
    ["distinct"] of the [switch]. *)
Definition copyFromB (fuel : nat) (sourcePathB targetPath : path)
    (type2 : DifferenceType) : M unit :=
  let* _ := ensureDir (dirname targetPath) in
  let* link := isSymlink sourcePathB in
  if link then
    let* symlinkTarget := readlink sourcePathB in
    symlink symlinkTarget targetPath
  else if bool_decide (type2 = TDirectory) then
    copy fuel sourcePathB targetPath
  else if bool_decide (type2 = TFile) then
    copy fuel sourcePathB targetPath
  else ret tt.

(** [relativePath ? path.join(relativePath, eitherName) : name1 || name2],
    behind the test that [relativePath] and [eitherName] are truthy. *)
Definition relativeFilePath_of (entry : Difference) : string :=
  let eitherName := js_or (name1 entry) (name2 entry) in
  posix_join (default "" (relativePath entry)) (default "" eitherName).

(** One turn of the loop over [diffSet]; [removedItems] is the array the
    loop pushes to. *)
Definition processEntry (fuel : nat) (folderB diffFolder : path)
    (entry : Difference) (removedItems : list string) : M (list string) :=
  let eitherName := js_or (name1 entry) (name2 entry) in
  if negb (truthy (relativePath entry)) || negb (truthy eitherName) then
    throw (InvalidEntry entry)
  else
    let relativeFilePath := relativeFilePath_of entry in
    if bool_decide (relativeFilePath = "") then
      throw (InvalidRelativeFilePath relativeFilePath)
    else
      let sourcePathB := path_join_str folderB relativeFilePath in
      let targetPath := path_join_str diffFolder relativeFilePath in
      match state entry with
      | StLeft => ret (removedItems ++ [relativeFilePath])
      | StRight =>
          let* _ := copyFromB fuel sourcePathB targetPath (type2 entry) in
          ret removedItems
      | StDistinct =>
          let* _ := copyFromB fuel sourcePathB targetPath (type2 entry) in
          ret removedItems
      | StEqual => ret removedItems
      end.

Definition manifest_json (removedItems : list string) : json :=
  JObj [("removed", JArr (JStr <$> removedItems))].

Definition createDiff (compare : comparator) (fuel : nat)
    (folderA folderB diffFolder : path) (options : DiffOptions) : M unit :=
  let* _ := remove diffFolder in
  let* _ := ensureDir diffFolder in
  let* comparisonResult := compareDirectories compare folderA folderB options in
  match diffSet comparisonResult with
  | None => throw EmptyResult
  | Some entries =>
      let* removedItems :=
        for_of_acc entries (processEntry fuel folderB diffFolder) [] in
      if bool_decide (0 < length removedItems) then
        let metadataPath := path_join diffFolder [METADATA_NAME] in
        writeJson metadataPath (manifest_json removedItems)
      else ret tt
  end.

(* ================================================================== *)
(** * src/restoreDiff.ts *)
(* ================================================================== *)

Definition js_truthy (j : json) : bool :=
  match j with
  | JNull => false
  | JBool b => b
  | JNum n => negb (bool_decide (n = 0%Z))
  | JStr s => negb (bool_decide (s = ""))
  | JArr _ | JObj _ => true
  end.

(** [o.removed] on a parsed object: the last field of that name. *)
Fixpoint get_field (name : string) (fields : list (string * json))
  : option json :=
  match fields with
  | [] => None
  | (k, v) :: rest =>
      match get_field name rest with
      | Some v' => Some v'
      | None => if bool_decide (k = name) then Some v else None
      end
  end.

(** [metadata.removed || []] *)
Definition removed_or_empty (metadata : json) : error + json :=
  match metadata with
  | JNull => inl (TypeError "Cannot read properties of null")
  | JObj fields =>
      match get_field "removed" fields with
      | Some v => if js_truthy v then inr v else inr (JArr [])
      | None => inr (JArr [])
      end
  | _ => inr (JArr [])
  end.

(** A string iterates by code point.  The bytes of a string are its UTF-8
    text, in which the bytes [10xxxxxx] continue the character before. *)
Definition continues (c : ascii) : bool :=
  match c with
  | Ascii _ _ _ _ _ _ b6 b7 => b7 && negb b6
  end.

Definition starts_continued (s : string) : bool :=
  match s with
  | String c _ => continues c
  | EmptyString => false
  end.

Fixpoint code_points (s : string) : list string :=
  match s with
  | EmptyString => []
  | String c s' =>
      match code_points s' with
      | g :: gs =>
          if starts_continued s' then String c g :: gs
          else String c "" :: g :: gs
      | [] => [String c ""]
      end
  end.

Definition chars_of (s : string) : list json := JStr <$> code_points s.

(** The values [for (... of removedItems)] goes through. *)
Definition iterate (removedItems : json) : error + list json :=
  match removedItems with
  | JArr items => inr items
  | JStr s => inr (chars_of s)
  | _ => inl (TypeError "removedItems is not iterable")
  end.

(** The closure [filter] of [restoreDiff].  Nothing calls it. *)
Definition restore_filter (diffFolder : path) (src dest : path) : bool :=
  let relative := path_relative diffFolder src in
  if bool_decide (relative = [METADATA_NAME]) then false else true.

(** One turn of the loop "Handle Removals". *)
Definition removeItem (targetFolder : path) (itemPath : json) : M unit :=
  match itemPath with
  | JStr itemPath =>
      let targetPath := path_join_str targetFolder itemPath in
      let* ex := pathExists targetPath in
      if ex then remove targetPath else ret tt
  | _ => throw (TypeError "The path argument must be of type string")
  end.

(** One turn of the loop in [walk]; [walk_into] is the recursive call. *)
Definition restoreItem (walk_into : path → M unit)
    (targetFolder diffFolder currentPath : path) (item : string) : M unit :=
  let srcPath := path_join currentPath [item] in
  let relativePath := path_relative diffFolder srcPath in
  let destPath := path_join targetFolder relativePath in
  let* stats := lstat srcPath in
  if isSymbolicLink stats then
    let* symlinkTarget := readlink srcPath in
    let* _ := ensureDir (dirname destPath) in
    let* ex := pathExists destPath in
    let* _ := (if ex then remove destPath else ret tt) in
    symlink symlinkTarget destPath
  else if isDirectory stats then
    let* _ := ensureDir destPath in
    walk_into srcPath
  else if isFile stats then
    let* _ := ensureDir (dirname destPath) in
    copyFile srcPath destPath
  else ret tt.

(** [walk]: [fuel] bounds the depth of the recursion. *)
Fixpoint walk (fuel : nat) (targetFolder diffFolder currentPath : path)
  : M unit :=
  match fuel with
  | 0 => throw OutOfFuel
  | S fuel' =>
      let* items := readdir currentPath in
      for_of items
        (restoreItem (walk fuel' targetFolder diffFolder)
           targetFolder diffFolder currentPath)
  end.

Definition readRemovedItems (metadataPath : path) : M json :=
  let* ex := pathExists metadataPath in
  if ex then
    let* metadata := readJson metadataPath in
    match removed_or_empty metadata with
    | inl e => throw e
    | inr v => ret v
    end
  else ret (JArr []).

Definition handleRemovals (targetFolder : path) (removedItems : json)
  : M unit :=
  match iterate removedItems with
  | inl e => throw e
  | inr items => for_of items (removeItem targetFolder)
  end.

Definition restoreDiff (fuel : nat) (targetFolder diffFolder : path)
    (metadataPath : option path) : M unit :=
  let metadataPath :=
    default (path_join diffFolder [METADATA_NAME]) metadataPath in
  let* removedItems := readRemovedItems metadataPath in
  let* _ := handleRemovals targetFolder removedItems in
  walk fuel targetFolder diffFolder diffFolder.

(* ================================================================== *)
(** * Vocabulary of the statements *)
(* ================================================================== *)

(** The test [!relativePath || !eitherName] of [createDiff]. *)
Definition invalid_entry (entry : Difference) : bool :=
  negb (truthy (relativePath entry))
  || negb (truthy (js_or (name1 entry) (name2 entry))).

(** The paths [createDiff] pushes to [removedItems]: those of the entries in
    state ["left"], in the order of [diffSet]. *)
Definition left_path (entry : Difference) : option string :=
  match state entry with
  | StLeft => Some (relativeFilePath_of entry)
  | _ => None
  end.

Definition left_paths (entries : list Difference) : list string :=
  omap left_path entries.

(** Two trees of one file system are equal: the same relative paths, with
    the same entries (file bytes, link targets, directories). *)
Definition same_tree (fs : FS) (a b : path) : Prop :=
  ∀ rel : list string, fs !! (a ++ rel) = fs !! (b ++ rel).

Definition is_rejection (ev : event) : Prop :=
  ∃ c e, ev = Called c (Some e).

(** A rejected [fs-extra] call other than [lstat]. *)
Definition is_lstat (c : call) : bool :=
  match c with CLstat _ => true | _ => false end.

Definition is_writeJson_event (ev : event) : Prop :=
  ∃ p j r, ev = Called (CWriteJson p j) r.



(** ** The scenario of the integration test

    [A = {file1.txt, file2.txt}], [B = {file1.txt (modified), file3.txt}],
    under [/A] and [/B]; the diff folder is [/D]. *)
Definition mkfs (l : list (list string * entry)) : FS := list_to_map l.

Definition scenario_fs : FS := mkfs [
  (["A"], EDir);
  (["A"; "file1.txt"], EFile (Bytes "Original content"));
  (["A"; "file2.txt"], EFile (Bytes "To be deleted"));
  (["B"], EDir);
  (["B"; "file1.txt"], EFile (Bytes "Modified content"));
  (["B"; "file3.txt"], EFile (Bytes "New file"))].

Definition in_root (st : DifferenceState) (n1 n2 : option string)
    (t1 t2 : DifferenceType) : Difference :=
  {| state := st; name1 := n1; name2 := n2; relativePath := Some "/";
     type1 := t1; type2 := t2 |}.

(** What the comparator reports on the scenario. *)
Definition scenario_compare : comparator := λ _ _ _ _,
  inr {| diffSet := Some [
    in_root StDistinct (Some "file1.txt") (Some "file1.txt") TFile TFile;
    in_root StLeft (Some "file2.txt") None TFile TMissing;
    in_root StRight None (Some "file3.txt") TMissing TFile ] |}.

Definition manifest_file (removed : list string) : entry :=
  EFile (Json (manifest_json removed)).

(** A diff folder that only records one removal, and its target. *)
Definition removal_only_fs : FS := mkfs [
  (["T"], EDir);
  (["T"; "old.txt"], EFile (Bytes "old"));
  (["D"], EDir);
  (["D"; METADATA_NAME], manifest_file ["old.txt"])].

(** A diff folder that holds one dangling link, and an empty target. *)
Definition dangling_diff_fs : FS := mkfs [
  (["T"], EDir);
  (["D"], EDir);
  (["D"; "link"], ELink "nowhere")].

(** A target with a dangling link that the manifest lists as removed. *)
Definition dangling_removed_fs : FS := mkfs [
  (["T"], EDir);
  (["T"; "stale"], ELink "gone");
  (["D"], EDir);
  (["D"; METADATA_NAME], manifest_file ["stale"])].

(** [A] has a dangling link where [B] has a link to a file of [B]. *)
Definition relinked_fs : FS := mkfs [
  (["A"], EDir);
  (["A"; "link.txt"], ELink "gone");
  (["B"], EDir);
  (["B"; "file3.txt"], EFile (Bytes "New file"));
  (["B"; "link.txt"], ELink "file3.txt")].

Definition relinked_compare : comparator := λ _ _ _ _,
  inr {| diffSet := Some [
    in_root StRight None (Some "file3.txt") TMissing TFile;
    in_root StDistinct (Some "link.txt") (Some "link.txt")
      TBrokenLink TFile ] |}.

(** [B] has a new directory with a link in it; the comparator reports the
    directory and then what is in it. *)
Definition nested_link_fs : FS := mkfs [
  (["A"], EDir);
  (["B"], EDir);
  (["B"; "d"], EDir);
  (["B"; "d"; "l"], ELink "x")].

Definition nested_link_compare : comparator := λ _ _ _ _,
  inr {| diffSet := Some [
    in_root StRight None (Some "d") TMissing TDirectory;
    {| state := StRight; name1 := None; name2 := Some "l";
       relativePath := Some "/d"; type1 := TMissing; type2 := TFile |} ] |}.

(** The comparator reports a broken link that is gone when [createDiff]
    looks at it. *)
Definition vanished_fs : FS := mkfs [(["A"], EDir); (["B"], EDir)].

Definition vanished_compare : comparator := λ _ _ _ _,
  inr {| diffSet := Some [
    in_root StRight None (Some "ghost") TMissing TBrokenLink ] |}.


(** The first two steps of [restoreDiff]: reading the manifest and the loop
    "Handle Removals". *)
Definition metadataPath_of (diffFolder : path) (metadataPath : option path)
  : path :=
  default (path_join diffFolder [METADATA_NAME]) metadataPath.

Definition removalPhase (targetFolder diffFolder : path)
    (metadataPath : option path) : M unit :=
  let* removedItems :=
    readRemovedItems (metadataPath_of diffFolder metadataPath) in
  handleRemovals targetFolder removedItems.

(** [disciplined o]: in the run [o], a rejected call other than [lstat] is
    the last event, and its error is the error of the run. *)
Definition disciplined {A} (o : outcome A) : Prop :=
  ∀ pre c e post,
    trace o = pre ++ Called c (Some e) :: post → is_lstat c = false →
    post = [] ∧ result o = inl (FsError c e).

(** Events that are no rejected call, or a rejected [lstat]. *)
Definition harmless (ev : event) : Prop :=
  ∀ c e, ev = Called c (Some e) → is_lstat c = true.

(** The first two statements of [createDiff]. *)
Definition resetDiffFolder (diffFolder : path) : M unit :=
  let* _ := remove diffFolder in
  ensureDir diffFolder.


(** The run failed because an [fs-extra] call was rejected. *)
Definition fs_failure {A} (r : error + A) : Prop :=
  ∃ c e, r = inl (FsError c e).

(** What one entry adds to [removedItems]. *)
Definition pushed (entry : Difference) : list string :=
  match left_path entry with
  | Some s => [s]
  | None => []
  end.

(** The calls a turn of the loop over [diffSet] can make. *)
Definition entry_event (ev : event) : Prop :=
  match ev with
  | Called (CEnsureDir _ | CLstat _ | CReadlink _ | CSymlink _ _ | CCopy _ _) _
      => True
  | ConsoleError _ => True
  | _ => False
  end.

Definition is_remove_event (ev : event) : Prop :=
  ∃ p r, ev = Called (CRemove p) r.

(** Identical trees: the comparator reports entries in state ["equal"]. *)
Definition identical_fs : FS := mkfs [
  (["A"], EDir); (["A"; "same.txt"], EFile (Bytes "same"));
  (["B"], EDir); (["B"; "same.txt"], EFile (Bytes "same"));
  (["D"], EDir); (["D"; "stale.txt"], EFile (Bytes "left over"))].

Definition identical_compare : comparator := λ _ _ _ _,
  inr {| diffSet := Some [
    in_root StEqual (Some "same.txt") (Some "same.txt") TFile TFile ] |}.

(** A manifest that is no JSON, one without the field, one that is [null]. *)
Definition garbled_manifest_fs : FS := mkfs [
  (["T"], EDir); (["T"; "keep.txt"], EFile (Bytes "keep"));
  (["D"], EDir); (["D"; "new.txt"], EFile (Bytes "new"));
  (["D"; METADATA_NAME], EFile (Bytes "{removed: "))].

Definition fieldless_manifest_fs : FS := mkfs [
  (["T"], EDir); (["T"; "keep.txt"], EFile (Bytes "keep"));
  (["D"], EDir);
  (["D"; METADATA_NAME], EFile (Json (JObj [("version", JNum 1)])))].







(** The manifest lists [link.txt], a dangling link of the target, and the
    diff folder holds the link that is to take its place. *)
Definition readded_link_fs : FS := mkfs [
  (["T"], EDir);
  (["T"; "link.txt"], ELink "gone");
  (["D"], EDir);
  (["D"; "file3.txt"], EFile (Bytes "New file"));
  (["D"; "link.txt"], ELink "file3.txt");
  (["D"; METADATA_NAME], manifest_file ["/link.txt"])].








(* ================================================================== *)
(** * Running the two functions *)
(* ================================================================== *)

(** ** The monad: what a composed run looks like *)

Lemma bind_ok {A B} (m : M A) (k : A → M B) (fs : FS) (a : A) :
  result (m fs) = inr a →
  bind m k fs =
    Outcome (trace (m fs) ++ trace (k a (final (m fs))))
            (final (k a (final (m fs)))) (result (k a (final (m fs)))).
Proof. intros H. unfold bind. by rewrite H. Qed.

Lemma bind_fail {A B} (m : M A) (k : A → M B) (fs : FS) (e : error) :
  result (m fs) = inl e →
  bind m k fs = Outcome (trace (m fs)) (final (m fs)) (inl e).
Proof. intros H. unfold bind. by rewrite H. Qed.

Lemma outcome_eta {A} (o : outcome A) :
  o = Outcome (trace o) (final o) (result o).
Proof. by destruct o. Qed.

Lemma bind_assoc {A B C} (m : M A) (k : A → M B) (h : B → M C) (fs : FS) :
  bind (bind m k) h fs = bind m (λ a, bind (k a) h) fs.
Proof.
  unfold bind. destruct (result (m fs)) as [e|a] eqn:Hm; simpl; [done|].
  destruct (result (k a (final (m fs)))) as [e|b] eqn:Hk; simpl; [done|].
  by rewrite app_assoc.
Qed.

Lemma bind_run_ok {A B} (m : M A) (k : A → M B) (fs fs1 : FS)
    (t : list event) (a : A) :
  m fs = Outcome t fs1 (inr a) →
  bind m k fs
  = Outcome (t ++ trace (k a fs1)) (final (k a fs1)) (result (k a fs1)).
Proof. intros H. unfold bind. by rewrite H. Qed.

Lemma bind_run_fail {A B} (m : M A) (k : A → M B) (fs fs1 : FS)
    (t : list event) (e : error) :
  m fs = Outcome t fs1 (inl e) → bind m k fs = Outcome t fs1 (inl e).
Proof. intros H. unfold bind. by rewrite H. Qed.

Lemma fs_query_ok {A} (c : call) (f : FS → errno + A) (fs : FS) (a : A) :
  f fs = inr a → fs_query c f fs = Outcome [Called c None] fs (inr a).
Proof. intros H. unfold fs_query. by rewrite H. Qed.

Lemma fs_query_fail {A} (c : call) (f : FS → errno + A) (fs : FS) (e : errno) :
  f fs = inl e →
  fs_query c f fs = Outcome [Called c (Some e)] fs (inl (FsError c e)).
Proof. intros H. unfold fs_query. by rewrite H. Qed.

Lemma fs_update_ok (c : call) (f : FS → errno + FS) (fs fs' : FS) :
  f fs = inr fs' → fs_update c f fs = Outcome [Called c None] fs' (inr tt).
Proof. intros H. unfold fs_update. by rewrite H. Qed.

Lemma fs_update_fail (c : call) (f : FS → errno + FS) (fs : FS) (e : errno) :
  f fs = inl e →
  fs_update c f fs = Outcome [Called c (Some e)] fs (inl (FsError c e)).
Proof. intros H. unfold fs_update. by rewrite H. Qed.

(** [emits P m]: every event of every run of [m] satisfies [P]. *)
Definition emits {A} (P : event → Prop) (m : M A) : Prop :=
  ∀ fs, Forall P (trace (m fs)).

Lemma emits_ret {A} (P : event → Prop) (a : A) : emits P (ret a).
Proof. intros fs. constructor. Qed.

Lemma emits_throw {A} (P : event → Prop) (e : error) : emits P (@throw A e).
Proof. intros fs. constructor. Qed.

Lemma emits_bind {A B} (P : event → Prop) (m : M A) (k : A → M B) :
  emits P m → (∀ a, emits P (k a)) → emits P (bind m k).
Proof.
  intros Hm Hk fs. unfold bind.
  destruct (result (m fs)); simpl; [apply Hm|].
  apply Forall_app; split; [apply Hm | apply Hk].
Qed.

Lemma emits_try_catch {A} (P : event → Prop) (m : M A) (h : error → M A) :
  emits P m → (∀ e, emits P (h e)) → emits P (try_catch m h).
Proof.
  intros Hm Hh fs. unfold try_catch.
  destruct (result (m fs)); simpl; [|apply Hm].
  apply Forall_app; split; [apply Hm | apply Hh].
Qed.


Lemma emits_for_of_acc {A S} (P : event → Prop) (l : list A) (body : A → S → M S) s :
  (∀ x s, emits P (body x s)) → emits P (for_of_acc l body s).
Proof.
  intros Hb. revert s. induction l as [|x l IH]; intros s; simpl.
  - apply emits_ret.
  - apply emits_bind; [apply Hb | intros s'; apply IH].
Qed.

Lemma emits_fs_update (P : event → Prop) (c : call) (f : FS → errno + FS) :
  (∀ r, P (Called c r)) → emits P (fs_update c f).
Proof.
  intros H fs. unfold fs_update. destruct (f fs); simpl; repeat constructor; apply H.
Qed.

Lemma emits_fs_query {A} (P : event → Prop) (c : call) (f : FS → errno + A) :
  (∀ r, P (Called c r)) → emits P (fs_query c f).
Proof.
  intros H fs. unfold fs_query. destruct (f fs); simpl; repeat constructor; apply H.
Qed.

Lemma emits_console_error (P : event → Prop) (p : path) : P (ConsoleError p) → emits P (console_error p).
Proof. intros H fs. simpl. by repeat constructor. Qed.

Lemma emits_if {A} (P : event → Prop) (b : bool) (m1 m2 : M A) :
  emits P m1 → emits P m2 → emits P (if b then m1 else m2).
Proof. by destruct b. Qed.

(** ** The removal phase of [restoreDiff] writes nothing *)







(* ================================================================== *)
(** * The replay on concrete trees *)
(* ================================================================== *)

(** C1: on the scenario of the integration test, [createDiff] and then
    [restoreDiff] both succeed and bring [file1.txt], [file2.txt] and
    [file3.txt] of [A] to what [B] has, but [A] ends up with a copy of the
    manifest, which [B] does not have: the two trees are not equal. *)
Theorem roundtrip_leaves_manifest_in_target :
  let built :=
    createDiff scenario_compare 8 ["A"] ["B"] ["D"] default_options
      scenario_fs in
  let restored := restoreDiff 8 ["A"] ["D"] None (final built) in
  result built = inr tt ∧ result restored = inr tt ∧
  final restored !! ["A"; "file1.txt"] = Some (EFile (Bytes "Modified content")) ∧
  final restored !! ["A"; "file2.txt"] = None ∧
  final restored !! ["A"; "file3.txt"] = Some (EFile (Bytes "New file")) ∧
  final restored !! ["A"; METADATA_NAME] = Some (manifest_file ["/file2.txt"]) ∧
  final restored !! ["B"; METADATA_NAME] = None ∧
  ¬ same_tree (final restored) ["A"] ["B"].
Proof.
  repeat split; try (vm_compute; reflexivity).
  intros H. specialize (H [METADATA_NAME]). vm_compute in H. discriminate.
Qed.

(** C2: [restoreDiff] on a diff folder whose root holds the manifest copies
    the manifest into the target like any other file: [walk] never calls
    [restore_filter]. *)
Theorem manifest_is_copied_into_target :
  let o := restoreDiff 8 ["T"] ["D"] None removal_only_fs in
  result o = inr tt ∧
  Called (CCopyFile ["D"; METADATA_NAME] ["T"; METADATA_NAME]) None ∈ trace o ∧
  removal_only_fs !! ["T"; METADATA_NAME] = None ∧
  final o !! ["T"; METADATA_NAME] = Some (manifest_file ["old.txt"]) ∧
  restore_filter ["D"] ["D"; METADATA_NAME] ["T"; METADATA_NAME] = false.
Proof.
  repeat split; try (vm_compute; reflexivity).
  vm_compute. do 7 apply list_elem_of_further. apply list_elem_of_here.
Qed.

(** C3: a diff folder with a dangling link is applied once with success;
    applying it again fails: [pathExists] does not see the link the first
    run created, and [symlink] is rejected with EEXIST. *)
Theorem second_apply_fails_on_dangling_link :
  let once := restoreDiff 8 ["T"] ["D"] None dangling_diff_fs in
  let twice := restoreDiff 8 ["T"] ["D"] None (final once) in
  result once = inr tt ∧
  final once !! ["T"; "link"] = Some (ELink "nowhere") ∧
  pathExists_fs (final once) ["T"; "link"] = false ∧
  result twice = inl (FsError (CSymlink "nowhere" ["T"; "link"]) EEXIST).
Proof. repeat split; vm_compute; reflexivity. Qed.

(** C4: a dangling link that the manifest lists as removed is still in the
    target after [restoreDiff]: [pathExists] answers [false] for it and
    [remove] is not called. *)
Theorem dangling_link_is_not_removed :
  let o := restoreDiff 8 ["T"] ["D"] None dangling_removed_fs in
  result o = inr tt ∧
  lstat_fs dangling_removed_fs ["T"; "stale"] = inr (ELink "gone") ∧
  pathExists_fs dangling_removed_fs ["T"; "stale"] = false ∧
  Forall (λ ev, ∀ p r, ev ≠ Called (CRemove p) r) (trace o) ∧
  lstat_fs (final o) ["T"; "stale"] = inr (ELink "gone").
Proof.
  repeat split; try (vm_compute; reflexivity).
  vm_compute. repeat constructor; intros p r; discriminate.
Qed.

(** C5: [B] has the link [link.txt -> file3.txt] where [A] has a dangling
    link.  [createDiff] puts the link into the diff folder, with the same
    target; [restoreDiff] then fails with EEXIST and [A] keeps its old
    link. *)
Theorem restore_fails_over_dangling_link :
  let built :=
    createDiff relinked_compare 8 ["A"] ["B"] ["D"] default_options
      relinked_fs in
  let restored := restoreDiff 8 ["A"] ["D"] None (final built) in
  result built = inr tt ∧
  lstat_fs (final built) ["D"; "link.txt"] = inr (ELink "file3.txt") ∧
  result restored
    = inl (FsError (CSymlink "file3.txt" ["A"; "link.txt"]) EEXIST) ∧
  lstat_fs (final restored) ["A"; "link.txt"] = inr (ELink "gone").
Proof. repeat split; vm_compute; reflexivity. Qed.

(** C9: the manifest lists [link.txt], a dangling link of the target, and
    the diff folder holds the link to put in its place.  The removal phase
    ends without a call of [remove]; the replay starts with the old link
    still there, copies [file3.txt] and is then rejected at [symlink]: the
    listed deletion is never done, and the path that is removed and added
    again is not removed before it is added. *)
Theorem listed_link_is_still_there_at_replay :
  let phase := removalPhase ["T"] ["D"] None readded_link_fs in
  let o := restoreDiff 8 ["T"] ["D"] None readded_link_fs in
  readJson_fs readded_link_fs ["D"; METADATA_NAME]
    = inr (manifest_json ["/link.txt"]) ∧
  result phase = inr tt ∧
  lstat_fs (final phase) ["T"; "link.txt"] = inr (ELink "gone") ∧
  Forall (λ ev, ∀ p r, ev ≠ Called (CRemove p) r) (trace o) ∧
  Called (CCopyFile ["D"; "file3.txt"] ["T"; "file3.txt"]) None ∈ trace o ∧
  result o = inl (FsError (CSymlink "file3.txt" ["T"; "link.txt"]) EEXIST) ∧
  lstat_fs (final o) ["T"; "link.txt"] = inr (ELink "gone").
Proof.
  repeat split; try (vm_compute; reflexivity).
  - vm_compute. repeat constructor; intros p r; discriminate.
  - vm_compute. do 9 apply list_elem_of_further. apply list_elem_of_here.
Qed.


(** C7, as stated, fails: the comparator succeeds and every entry it
    reports is valid, and still the build fails (the directory [d] was copied
    with the link in it, then the link is created again). *)
Lemma valid_result_build_fails :
  let o :=
    createDiff nested_link_compare 8 ["A"] ["B"] ["D"] default_options
      nested_link_fs in
  (∃ entries,
     (∀ fs a b opts,
        nested_link_compare fs a b opts = inr {| diffSet := Some entries |}) ∧
     forallb (λ d, negb (invalid_entry d)) entries = true) ∧
  result o = inl (FsError (CSymlink "x" ["D"; "d"; "l"]) EEXIST).
Proof.
  split; [|vm_compute; reflexivity].
  eexists. split; [intros; reflexivity|]. vm_compute. reflexivity.
Qed.

(** C8, as stated, fails: [lstat] is rejected with ENOENT inside
    [isSymlink], the error is caught, and the build goes on to success. *)
Lemma lstat_failure_is_swallowed :
  let o :=
    createDiff vanished_compare 8 ["A"] ["B"] ["D"] default_options
      vanished_fs in
  Called (CLstat ["B"; "ghost"]) (Some ENOENT) ∈ trace o ∧
  ConsoleError ["B"; "ghost"] ∈ trace o ∧
  result o = inr tt.
Proof.
  repeat split; try (vm_compute; reflexivity).
  - vm_compute. do 4 apply list_elem_of_further. apply list_elem_of_here.
  - vm_compute. do 5 apply list_elem_of_further. apply list_elem_of_here.
Qed.

(* ================================================================== *)
(** * Path resolution under changes of the file system *)
(* ================================================================== *)

Lemma lookup_entry_cons (fs : FS) (cur : path) (seg : string) :
  lookup_entry fs (cur ++ [seg]) = fs !! (cur ++ [seg]).
Proof. by destruct cur. Qed.

Lemma lookup_entry_weaken (fs fs' : FS) (p : path) (e : entry) :
  fs ⊆ fs' → lookup_entry fs p = Some e → lookup_entry fs' p = Some e.
Proof.
  intros Hsub. destruct p; simpl; [done|].
  intros H. by eapply lookup_weaken.
Qed.

(** A resolution that ends at an existing entry is not disturbed by new
    entries. *)
Lemma resolve_with_mono (fs fs' : FS) (fl : bool)
    (jump jump' : path → list string → errno + path) :
  fs ⊆ fs' →
  (∀ cur todo r e, jump cur todo = inr r → lookup_entry fs r = Some e →
     jump' cur todo = inr r) →
  ∀ todo cur r e,
    resolve_with fs fl jump cur todo = inr r → lookup_entry fs r = Some e →
    resolve_with fs' fl jump' cur todo = inr r.
Proof.
  intros Hsub Hjump todo.
  induction todo as [|seg rest IH]; intros cur r e; simpl; [done|].
  destruct (skip_seg seg); [apply IH|].
  destruct (bool_decide (seg = "..")); [apply IH|].
  destruct (fs !! (cur ++ [seg])) as [en|] eqn:Hl.
  - rewrite (lookup_weaken _ _ _ _ Hl Hsub).
    destruct en as [d|t|]; [done| |apply IH].
    destruct (bool_decide (rest = []) && negb fl); [done|].
    destruct (bool_decide (t = "")); [done|]. apply Hjump.
  - destruct (bool_decide (rest = [])); [|done].
    intros [= <-]. rewrite lookup_entry_cons. congruence.
Qed.

Lemma resolve_links_mono (fs fs' : FS) (fl : bool) (n : nat) :
  fs ⊆ fs' →
  ∀ cur todo r e,
    resolve_links fs fl n cur todo = inr r → lookup_entry fs r = Some e →
    resolve_links fs' fl n cur todo = inr r.
Proof.
  intros Hsub. induction n as [|n IH]; intros cur todo r e; simpl.
  - apply resolve_with_mono; [done|]. intros ? ? ? ? [=].
  - apply resolve_with_mono; [done|]. apply IH.
Qed.

Lemma lstat_fs_mono (fs fs' : FS) (p : path) (e : entry) :
  fs ⊆ fs' → lstat_fs fs p = inr e → lstat_fs fs' p = inr e.
Proof.
  intros Hsub. unfold lstat_fs, resolve.
  destruct (resolve_links fs false MAXSYMLINKS [] p) as [err|c] eqn:Hr; [done|].
  destruct (lookup_entry fs c) as [en|] eqn:Hl; [|done]. intros [= ->].
  rewrite (resolve_links_mono fs fs' false _ Hsub _ _ _ _ Hr Hl).
  by rewrite (lookup_entry_weaken _ _ _ _ Hsub Hl).
Qed.











(** [ensureDir] only adds directories. *)
Lemma mkdir_fs_subseteq (fs fs' : FS) (p : path) :
  mkdir_fs fs p = inr fs' → fs ⊆ fs'.
Proof.
  unfold mkdir_fs. destruct (resolve fs false p) as [e|c]; [done|].
  destruct c as [|s c]; simpl; [done|].
  destruct (fs !! (s :: c)) eqn:Hl; [done|]. intros [= <-].
  by apply insert_subseteq.
Qed.

Lemma ensure_prefix_subseteq (last : bool) (fs fs' : FS) (q : path) :
  ensure_prefix last fs q = inr fs' → fs ⊆ fs'.
Proof.
  unfold ensure_prefix.
  destruct (stat_fs fs q) as [[]|[]]; try done; try by intros [= <-].
  destruct (mkdir_fs fs q) as [[]|fs1] eqn:Hm; try done.
  intros [= <-]. by eapply mkdir_fs_subseteq.
Qed.

Lemma ensure_prefixes_subseteq (todo : list string) :
  ∀ (fs fs' : FS) (done : path),
    ensure_prefixes fs done todo = inr fs' → fs ⊆ fs'.
Proof.
  induction todo as [|s rest IH]; intros fs fs' dn; simpl.
  - by intros [= <-].
  - destruct (ensure_prefix _ fs (dn ++ [s])) as [e|fs1] eqn:H1; [done|].
    intros H2. etrans; [by eapply ensure_prefix_subseteq | by eapply IH].
Qed.

Lemma ensureDir_fs_subseteq (fs fs' : FS) (p : path) :
  ensureDir_fs fs p = inr fs' → fs ⊆ fs'.
Proof. apply ensure_prefixes_subseteq. Qed.

(* ================================================================== *)
(** * A regular file replayed onto a link *)
(* ================================================================== *)

Lemma copyFile_no_remove (src dest : path) :
  emits (λ ev, ∀ p r, ev ≠ Called (CRemove p) r) (copyFile src dest).
Proof. apply emits_fs_update. intros r p r'. discriminate. Qed.



(* ================================================================== *)
(** * Links of the target during the replay *)
(* ================================================================== *)












(** ** The replay comes to every regular file of the diff folder *)



















(* ================================================================== *)
(** * Failures during a build *)
(* ================================================================== *)

Lemma app_eq_middle {A} (t1 t2 pre post : list A) (x : A) :
  t1 ++ t2 = pre ++ x :: post →
  (∃ post1, t1 = pre ++ x :: post1 ∧ post = post1 ++ t2) ∨
  (∃ pre2, pre = t1 ++ pre2 ∧ t2 = pre2 ++ x :: post).
Proof.
  revert pre. induction t1 as [|y t1 IH]; intros pre H; simpl in *.
  - right. by exists pre.
  - destruct pre as [|z pre]; simpl in *.
    + injection H as -> <-. left. by exists t1.
    + injection H as -> H. destruct (IH _ H) as [(post1 & -> & ->)|(pre2 & -> & ->)].
      * left. by exists post1.
      * right. by exists pre2.
Qed.

Lemma harmless_disciplined {A} (o : outcome A) :
  Forall harmless (trace o) → disciplined o.
Proof.
  intros Hall pre c e post Heq Hc. rewrite Heq in Hall.
  apply Forall_app in Hall as [_ Hall]. apply Forall_cons in Hall as [Hh _].
  specialize (Hh c e eq_refl). congruence.
Qed.

Lemma disciplined_ok_harmless {A} (o : outcome A) (a : A) :
  disciplined o → result o = inr a → Forall harmless (trace o).
Proof.
  intros Hd Hr. apply Forall_forall. intros ev Hin c e ->.
  apply list_elem_of_split in Hin as (pre & post & Heq).
  destruct (is_lstat c) eqn:Hc; [done|].
  destruct (Hd _ _ _ _ Heq Hc) as [_ Hf]. congruence.
Qed.

Lemma disciplined_bind {A B} (m : M A) (k : A → M B) (fs : FS) :
  disciplined (m fs) → (∀ a fs', disciplined (k a fs')) →
  disciplined (bind m k fs).
Proof.
  intros Hm Hk. unfold bind.
  destruct (result (m fs)) as [err|a] eqn:Hr.
  - intros pre c e post Heq Hc. simpl in *.
    destruct (Hm _ _ _ _ Heq Hc) as [-> Hres]. split; [done|]. congruence.
  - intros pre c e post Heq Hc. simpl in *.
    apply app_eq_middle in Heq as [(post1 & Heq & ->)|(pre2 & -> & Heq)].
    + destruct (Hm _ _ _ _ Heq Hc) as [_ Hres]. congruence.
    + exact (Hk _ _ _ _ _ _ Heq Hc).
Qed.

Lemma disciplined_fs_update (c : call) (f : FS → errno + FS) (fs : FS) :
  disciplined (fs_update c f fs).
Proof.
  unfold fs_update. destruct (f fs) as [e|fs']; intros pre c' e' post Heq Hc;
    simpl in *.
  - destruct pre as [|x [|y pre]]; simplify_eq/=. done.
  - destruct pre as [|x [|y pre]]; simplify_eq/=.
Qed.

Lemma disciplined_fs_query {A} (c : call) (f : FS → errno + A) (fs : FS) :
  disciplined (fs_query c f fs).
Proof.
  unfold fs_query. destruct (f fs) as [e|a]; intros pre c' e' post Heq Hc;
    simpl in *.
  - destruct pre as [|x [|y pre]]; simplify_eq/=. done.
  - destruct pre as [|x [|y pre]]; simplify_eq/=.
Qed.

Lemma disciplined_nil {A} (o : outcome A) : trace o = [] → disciplined o.
Proof. intros H pre c e post Heq. rewrite H in Heq. by destruct pre. Qed.

Lemma disciplined_for_of_acc {A S} (l : list A) (body : A → S → M S) :
  (∀ x s fs, disciplined (body x s fs)) →
  ∀ s fs, disciplined (for_of_acc l body s fs).
Proof.
  intros Hb. induction l as [|x l IH]; intros s fs; simpl.
  - by apply disciplined_nil.
  - apply disciplined_bind; [apply Hb | intros; apply IH].
Qed.

Lemma isSymlink_harmless (p : path) : emits harmless (isSymlink p).
Proof.
  unfold isSymlink. apply emits_try_catch.
  - apply emits_bind; [|intros; apply emits_ret].
    apply emits_fs_query. by intros r c e [= <- _].
  - intros _. apply emits_bind; [|intros; apply emits_ret].
    apply emits_console_error. by intros c e.
Qed.

Lemma compareDirectories_harmless (compare : comparator) (a b : path)
    (opts : DiffOptions) :
  emits harmless (compareDirectories compare a b opts).
Proof.
  unfold compareDirectories. apply emits_try_catch.
  - apply emits_bind; [|intros; apply emits_ret].
    intros fs. unfold dir_compare. destruct (compare fs a b opts); simpl;
      repeat constructor; by intros c e.
  - intros e. apply emits_throw.
Qed.

Lemma disciplined_copyFromB (fuel : nat) (src dest : path)
    (ty : DifferenceType) (fs : FS) :
  disciplined (copyFromB fuel src dest ty fs).
Proof.
  unfold copyFromB. apply disciplined_bind; [apply disciplined_fs_update|].
  intros _ fs1. apply disciplined_bind.
  { apply harmless_disciplined, isSymlink_harmless. }
  intros [|] fs2.
  - apply disciplined_bind; [apply disciplined_fs_query|].
    intros t fs3. apply disciplined_fs_update.
  - destruct (bool_decide (ty = TDirectory)); [apply disciplined_fs_update|].
    destruct (bool_decide (ty = TFile)); [apply disciplined_fs_update|].
    by apply disciplined_nil.
Qed.

Lemma disciplined_processEntry (fuel : nat) (B D : path) (entry : Difference)
    (acc : list string) (fs : FS) :
  disciplined (processEntry fuel B D entry acc fs).
Proof.
  unfold processEntry.
  destruct (negb (truthy (relativePath entry)) || _); [by apply disciplined_nil|].
  destruct (bool_decide (relativeFilePath_of entry = ""));
    [by apply disciplined_nil|].
  destruct (state entry); try by apply disciplined_nil.
  - apply disciplined_bind; [apply disciplined_copyFromB|].
    intros; by apply disciplined_nil.
  - apply disciplined_bind; [apply disciplined_copyFromB|].
    intros; by apply disciplined_nil.
Qed.

(** C8, amended: in every run of [createDiff], a rejected [fs-extra] call
    other than [lstat] is the last thing the run does, and the error of
    that call is the error [createDiff] fails with. *)
Theorem rejected_call_aborts_build (compare : comparator) (fuel : nat)
    (A B D : path) (opts : DiffOptions) (fs : FS)
    (pre post : list event) (c : call) (e : errno) :
  let o := createDiff compare fuel A B D opts fs in
  trace o = pre ++ Called c (Some e) :: post → is_lstat c = false →
  post = [] ∧ result o = inl (FsError c e).
Proof.
  simpl. revert pre c e post.
  change (disciplined (createDiff compare fuel A B D opts fs)).
  unfold createDiff.
  apply disciplined_bind; [apply disciplined_fs_update|]. intros _ fs1.
  apply disciplined_bind; [apply disciplined_fs_update|]. intros _ fs2.
  apply disciplined_bind.
  { apply harmless_disciplined, compareDirectories_harmless. }
  intros r fs3. destruct (diffSet r) as [entries|]; [|by apply disciplined_nil].
  apply disciplined_bind.
  { apply disciplined_for_of_acc. intros. apply disciplined_processEntry. }
  intros removed fs4.
  destruct (bool_decide (0 < length removed)).
  - apply disciplined_fs_update.
  - by apply disciplined_nil.
Qed.

Lemma rejected_call_aborts_build_witness :
  let o :=
    createDiff nested_link_compare 8 ["A"] ["B"] ["D"] default_options
      nested_link_fs in
  ([] : list event) = [] ∧
  result o = inl (FsError (CSymlink "x" ["D"; "d"; "l"]) EEXIST).
Proof.
  apply (rejected_call_aborts_build nested_link_compare 8 ["A"] ["B"] ["D"]
           default_options nested_link_fs
           [Called (CRemove ["D"]) None; Called (CEnsureDir ["D"]) None;
            Compared ["A"] ["B"] false; Called (CEnsureDir ["D"]) None;
            Called (CLstat ["B"; "d"]) None;
            Called (CCopy ["B"; "d"] ["D"; "d"]) None;
            Called (CEnsureDir ["D"; "d"]) None;
            Called (CLstat ["B"; "d"; "l"]) None;
            Called (CReadlink ["B"; "d"; "l"]) None] []
           (CSymlink "x" ["D"; "d"; "l"]) EEXIST);
    vm_compute; reflexivity.
Defined.

(* ================================================================== *)
(** * The errors of a build *)
(* ================================================================== *)

(** [path.join] never gives the empty string, so the second [throw] of the
    loop is never reached. *)
Lemma skip_seg_nonempty (s : string) : skip_seg s = false → s ≠ "".
Proof. intros H ->. done. Qed.

Lemma Forall_removelast {A} (P : A → Prop) (l : list A) :
  Forall P l → Forall P (removelast l).
Proof.
  induction 1 as [|x l Hx Hl IH]; simpl; [constructor|].
  destruct l; [constructor|]. by constructor.
Qed.

Lemma norm_rel_nonempty (abs : bool) (segs : list string) :
  ∀ stack, Forall (λ s, s ≠ "") stack →
    Forall (λ s, s ≠ "") (norm_rel abs stack segs).
Proof.
  induction segs as [|s rest IH]; intros stack Hst; simpl; [done|].
  destruct (skip_seg s) eqn:Hs; [by apply IH|].
  assert (Forall (λ s, s ≠ "") (stack ++ [s])) as Hpush.
  { apply Forall_app. split; [done|]. repeat constructor.
    by apply skip_seg_nonempty. }
  destruct (bool_decide (s = "..")); [|by apply IH].
  destruct (reverse stack) as [|top ?].
  - destruct abs; by apply IH.
  - destruct (bool_decide (top = "..")); apply IH; [done|].
    by apply Forall_removelast.
Qed.

Lemma append_nonempty_l (a b : string) : a ≠ "" → a +:+ b ≠ "".
Proof. by destruct a. Qed.

Lemma join_slash_nonempty (l : list string) :
  l ≠ [] → Forall (λ s, s ≠ "") l → join_slash l ≠ "".
Proof.
  destruct l as [|s [|s' l]]; [done| |].
  - intros _ H. by apply Forall_cons in H as [H _].
  - intros _ H. apply Forall_cons in H as [H _].
    change (s +:+ ("/" +:+ join_slash (s' :: l)) ≠ "").
    by apply append_nonempty_l.
Qed.

Lemma posix_normalize_nonempty (s : string) : posix_normalize s ≠ "".
Proof.
  unfold posix_normalize. destruct (is_absolute s); [done|].
  case_bool_decide as Hsegs; [by destruct (ends_with_slash s)|].
  pose proof (join_slash_nonempty _ Hsegs
                (norm_rel_nonempty false (split_slash s) [] (Forall_nil_2 _))).
  destruct (ends_with_slash s); [by apply append_nonempty_l | done].
Qed.

Lemma posix_join_nonempty (a b : string) : posix_join a b ≠ "".
Proof.
  unfold posix_join. repeat case_bool_decide; try done;
    apply posix_normalize_nonempty.
Qed.

(** Apart from the two [throw]s, a turn of the loop fails only when an
    [fs-extra] call is rejected. *)
Lemma isSymlink_never_fails (p : path) (fs : FS) :
  ∃ b, result (isSymlink p fs) = inr b ∧ final (isSymlink p fs) = fs.
Proof.
  unfold isSymlink, try_catch, bind, lstat, fs_query.
  destruct (lstat_fs fs p); simpl; eauto.
Qed.

Lemma fs_update_result (c : call) (f : FS → errno + FS) (fs : FS) :
  fs_failure (result (fs_update c f fs)) ∨ result (fs_update c f fs) = inr tt.
Proof.
  unfold fs_update. destruct (f fs); simpl; [left|right]; [by eexists _, _|done].
Qed.

Lemma copyFromB_result (fuel : nat) (src dest : path) (ty : DifferenceType)
    (fs : FS) :
  fs_failure (result (copyFromB fuel src dest ty fs))
  ∨ result (copyFromB fuel src dest ty fs) = inr tt.
Proof.
  unfold copyFromB, bind.
  destruct (fs_update_result (CEnsureDir (dirname dest))
              (λ fs, ensureDir_fs fs (dirname dest)) fs) as [(c & e & H)|H];
    fold (ensureDir (dirname dest)) in H; rewrite H; simpl;
    [left; by eexists _, _|].
  set (fs1 := final (ensureDir (dirname dest) fs)).
  destruct (isSymlink_never_fails src fs1) as (b & Hb & Hfs). rewrite Hb.
  destruct b; simpl.
  - unfold readlink, fs_query.
    destruct (readlink_fs (final (isSymlink src fs1)) src); simpl;
      [left; by eexists _, _|].
    destruct (fs_update_result (CSymlink s dest)
                (λ fs, symlink_fs fs s dest) (final (isSymlink src fs1)))
      as [(c & e & H')|H']; fold (symlink s dest) in H'; rewrite H';
      [left; by eexists _, _ | by right].
  - destruct (bool_decide (ty = TDirectory)).
    { destruct (fs_update_result (CCopy src dest)
                (λ fs, copy_fs fuel fs src dest) (final (isSymlink src fs1)))
      as [(c & e & H')|H']; fold (copy fuel src dest) in H'; rewrite H';
      [left; by eexists _, _ | by right]. }
    destruct (bool_decide (ty = TFile)).
    { destruct (fs_update_result (CCopy src dest)
                (λ fs, copy_fs fuel fs src dest) (final (isSymlink src fs1)))
      as [(c & e & H')|H']; fold (copy fuel src dest) in H'; rewrite H';
      [left; by eexists _, _ | by right]. }
    by right.
Qed.

Lemma processEntry_invalid (fuel : nat) (B D : path) (entry : Difference)
    (acc : list string) (fs : FS) :
  invalid_entry entry = true →
  processEntry fuel B D entry acc fs = Outcome [] fs (inl (InvalidEntry entry)).
Proof.
  unfold processEntry, invalid_entry. intros H. by rewrite H.
Qed.

Lemma processEntry_valid (fuel : nat) (B D : path) (entry : Difference)
    (acc : list string) (fs : FS) :
  invalid_entry entry = false →
  fs_failure (result (processEntry fuel B D entry acc fs))
  ∨ result (processEntry fuel B D entry acc fs) = inr (acc ++ pushed entry).
Proof.
  unfold processEntry, invalid_entry, pushed, left_path. intros H. rewrite H.
  rewrite bool_decide_eq_false_2 by apply posix_join_nonempty.
  destruct (state entry); simpl.
  - right. by rewrite app_nil_r.
  - by right.
  - unfold bind.
    destruct (copyFromB_result fuel
                (path_join_str B (relativeFilePath_of entry))
                (path_join_str D (relativeFilePath_of entry))
                (type2 entry) fs) as [(c & e & H')|H']; rewrite H'; simpl;
      [left; by eexists _, _ | right; by rewrite app_nil_r].
  - unfold bind.
    destruct (copyFromB_result fuel
                (path_join_str B (relativeFilePath_of entry))
                (path_join_str D (relativeFilePath_of entry))
                (type2 entry) fs) as [(c & e & H')|H']; rewrite H'; simpl;
      [left; by eexists _, _ | right; by rewrite app_nil_r].
Qed.

(** The loop over [diffSet]: it stops at the first invalid entry with that
    entry in the error, unless a call was rejected before; without an
    invalid entry and a rejected call it returns the paths of the entries in
    state ["left"]. *)
Lemma build_loop_result (fuel : nat) (B D : path) (entries : list Difference) :
  ∀ (acc : list string) (fs : FS),
    let o := for_of_acc entries (processEntry fuel B D) acc fs in
    fs_failure (result o) ∨
    match List.find invalid_entry entries with
    | Some d => result o = inl (InvalidEntry d)
    | None => result o = inr (acc ++ left_paths entries)
    end.
Proof.
  induction entries as [|x rest IH]; intros acc fs; simpl.
  - right. by rewrite app_nil_r.
  - destruct (invalid_entry x) eqn:Hx.
    + right. unfold bind. by rewrite processEntry_invalid.
    + unfold bind.
      destruct (processEntry_valid fuel B D x acc fs Hx)
        as [(c & e & H)|H]; rewrite H; simpl; [left; by eexists _, _|].
      destruct (IH (acc ++ pushed x)
                  (final (processEntry fuel B D x acc fs))) as [Hf|Hr];
        [by left|right].
      destruct (List.find invalid_entry rest); [done|].
      rewrite Hr. unfold left_paths, pushed. simpl.
      destruct (left_path x); simpl; by rewrite <- app_assoc.
Qed.

Lemma compareDirectories_run (compare : comparator) (a b : path)
    (opts : DiffOptions) (fs : FS) :
  compareDirectories compare a b opts fs
  = match compare fs a b opts with
    | inl msg => Outcome [Compared a b true] fs (inl (ComparisonError msg))
    | inr r => Outcome [Compared a b false] fs (inr r)
    end.
Proof.
  unfold compareDirectories, try_catch, bind, dir_compare.
  by destruct (compare fs a b opts).
Qed.

Lemma createDiff_after_reset (compare : comparator) (fuel : nat)
    (A B D : path) (opts : DiffOptions) (fs : FS) :
  createDiff compare fuel A B D opts fs
  = bind (resetDiffFolder D)
      (λ _,
       let* comparisonResult := compareDirectories compare A B opts in
       match diffSet comparisonResult with
       | None => throw EmptyResult
       | Some entries =>
           let* removedItems :=
             for_of_acc entries (processEntry fuel B D) [] in
           if bool_decide (0 < length removedItems) then
             writeJson (path_join D [METADATA_NAME])
               (manifest_json removedItems)
           else ret tt
       end) fs.
Proof. unfold createDiff, resetDiffFolder. by rewrite bind_assoc. Qed.

Lemma fs_failure_inl {A B} (e : error) :
  @fs_failure A (inl e) → @fs_failure B (inl e).
Proof. intros (c & e' & [= ->]). by eexists _, _. Qed.

Lemma resetDiffFolder_result (D : path) (fs : FS) :
  fs_failure (result (resetDiffFolder D fs))
  ∨ result (resetDiffFolder D fs) = inr tt.
Proof.
  unfold resetDiffFolder, bind.
  destruct (fs_update_result (CRemove D) (λ fs, remove_fs fs D) fs)
    as [(c & e & H)|H]; fold (remove D) in H; rewrite H; simpl;
    [left; by eexists _, _|].
  destruct (fs_update_result (CEnsureDir D) (λ fs, ensureDir_fs fs D)
              (final (remove D fs)))
    as [(c & e & H')|H']; fold (ensureDir D) in H'; rewrite H';
    [left; by eexists _, _ | by right].
Qed.

(** C7, amended: what [createDiff] fails with.  If the comparator rejects,
    the build fails with the comparison error that wraps its message; if the
    result has no [diffSet], with the error for the empty result; if some
    entry lacks its relative path or both names, with the error that carries
    the first such entry -- unless an [fs-extra] call was rejected before the
    loop got there.  A rejected call is the only other way to fail. *)
Theorem build_failures (compare : comparator) (fuel : nat)
    (A B D : path) (opts : DiffOptions) (fs : FS) :
  let reset := resetDiffFolder D fs in
  let o := createDiff compare fuel A B D opts fs in
  match result reset with
  | inl e => result o = inl e ∧ fs_failure (result o)
  | inr _ =>
      match compare (final reset) A B opts with
      | inl msg => result o = inl (ComparisonError msg)
      | inr r =>
          match diffSet r with
          | None => result o = inl EmptyResult
          | Some entries =>
              fs_failure (result o) ∨
              match List.find invalid_entry entries with
              | Some d => result o = inl (InvalidEntry d)
              | None => result o = inr tt
              end
          end
      end
  end.
Proof.
  simpl. rewrite createDiff_after_reset.
  destruct (result (resetDiffFolder D fs)) as [e|[]] eqn:Hreset.
  { rewrite (bind_fail _ _ _ _ Hreset). simpl. split; [done|].
    rewrite <- Hreset.
    destruct (resetDiffFolder_result D fs) as [H|H]; [done|congruence]. }
  rewrite (bind_ok _ _ _ _ Hreset). simpl.
  set (fs1 := final (resetDiffFolder D fs)).
  pose proof (compareDirectories_run compare A B opts fs1) as Hrun.
  destruct (compare fs1 A B opts) as [msg|r].
  { by rewrite (bind_run_fail _ _ _ _ _ _ Hrun). }
  rewrite (bind_run_ok _ _ _ _ _ _ Hrun). simpl.
  destruct (diffSet r) as [entries|]; [|done].
  pose proof (build_loop_result fuel B D entries [] fs1) as Hl. simpl in Hl.
  destruct (result (for_of_acc entries (processEntry fuel B D) [] fs1))
    as [e|removed] eqn:Hloop.
  - rewrite (bind_fail _ _ _ _ Hloop). simpl.
    destruct Hl as [Hl|Hl]; [left; by eapply fs_failure_inl|right].
    destruct (List.find invalid_entry entries); [by injection Hl as -> | done].
  - rewrite (bind_ok _ _ _ _ Hloop). simpl.
    destruct Hl as [(c & e & Hl)|Hl]; [done|].
    destruct (List.find invalid_entry entries); [done|].
    case_bool_decide; [|by right].
    match goal with
    | |- context [writeJson ?p ?j ?f] =>
        destruct (fs_update_result (CWriteJson p j)
                    (λ fs, writeJson_fs fs p j) f) as [H'|H'];
        fold (writeJson p j) in H'
    end; [by left | by right].
Qed.

(* ================================================================== *)
(** * The manifest *)
(* ================================================================== *)




Lemma compareDirectories_no_writeJson (compare : comparator) (a b : path)
    (opts : DiffOptions) :
  emits (λ ev, ¬ is_writeJson_event ev) (compareDirectories compare a b opts).
Proof.
  intros fs. rewrite compareDirectories_run.
  destruct (compare fs a b opts); simpl; repeat constructor;
    by intros (p & j & r' & [=]).
Qed.







(* ================================================================== *)
(** * Further properties of [createDiff] *)
(* ================================================================== *)

(** [isSymlink] never fails and leaves the file system alone; it answers
    [true] exactly when [lstat] finds a symbolic link, and writes to the
    console exactly when [lstat] is rejected. *)
Theorem isSymlink_answer (p : path) (fs : FS) :
  ∃ b, result (isSymlink p fs) = inr b ∧ final (isSymlink p fs) = fs ∧
       (b = true ↔ ∃ t, lstat_fs fs p = inr (ELink t)) ∧
       (ConsoleError p ∈ trace (isSymlink p fs) ↔ ∃ e, lstat_fs fs p = inl e).
Proof.
  unfold isSymlink, try_catch, bind, lstat, fs_query, console_error.
  destruct (lstat_fs fs p) as [e|[d|t|]] eqn:Hl; simpl.
  - exists false. repeat split; try done.
    + by intros [t [=]].
    + intros _. by exists e.
    + intros _. rewrite !elem_of_cons. by right; left.
  - exists false. repeat split; try done.
    + by intros [t [=]].
    + rewrite !elem_of_cons, elem_of_nil. by intros [[=]|[]].
    + by intros [e [=]].
  - exists true. repeat split; try done.
    + intros _. by exists t.
    + rewrite !elem_of_cons, elem_of_nil. by intros [[=]|[]].
    + by intros [e [=]].
  - exists false. repeat split; try done.
    + by intros [t [=]].
    + rewrite !elem_of_cons, elem_of_nil. by intros [[=]|[]].
    + by intros [e [=]].
Qed.

Lemma copyFromB_entry_events (fuel : nat) (src dest : path)
    (ty : DifferenceType) :
  emits entry_event (copyFromB fuel src dest ty).
Proof.
  unfold copyFromB. apply emits_bind; [by apply emits_fs_update|].
  intros _. apply emits_bind.
  { unfold isSymlink. apply emits_try_catch.
    - apply emits_bind; [by apply emits_fs_query | intros; apply emits_ret].
    - intros _. apply emits_bind;
        [by apply emits_console_error | intros; apply emits_ret]. }
  intros [|].
  - apply emits_bind; [by apply emits_fs_query|].
    intros t. by apply emits_fs_update.
  - repeat apply emits_if; try apply emits_ret; by apply emits_fs_update.
Qed.

Lemma processEntry_entry_events (fuel : nat) (B D : path)
    (entry : Difference) (acc : list string) :
  emits entry_event (processEntry fuel B D entry acc).
Proof.
  unfold processEntry. repeat apply emits_if; try apply emits_throw.
  destruct (state entry); try apply emits_ret;
    (apply emits_bind; [apply copyFromB_entry_events | intros; apply emits_ret]).
Qed.

(** Among the [fs-extra] calls of a build, [remove] occurs exactly once: it
    is the first call and its argument is the diff folder (whatever that
    path leads to); no later call is a [remove].  What [copy] unlinks at its
    destination when it overwrites is part of that call of [copy]. *)
Theorem createDiff_removes_only_diffFolder (compare : comparator)
    (fuel : nat) (A B D : path) (opts : DiffOptions) (fs : FS) :
  ∃ r rest,
    trace (createDiff compare fuel A B D opts fs) = Called (CRemove D) r :: rest
    ∧ Forall (λ ev, ¬ is_remove_event ev) rest.
Proof.
  unfold createDiff.
  assert (emits (λ ev, ¬ is_remove_event ev)
            (let* _ := ensureDir D in
             let* comparisonResult := compareDirectories compare A B opts in
             match diffSet comparisonResult with
             | None => throw EmptyResult
             | Some entries =>
                 let* removedItems :=
                   for_of_acc entries (processEntry fuel B D) [] in
                 if bool_decide (0 < length removedItems) then
                   writeJson (path_join D [METADATA_NAME])
                     (manifest_json removedItems)
                 else ret tt
             end)) as Hrest.
  { apply emits_bind.
    { apply emits_fs_update. by intros r (p & r' & [=]). }
    intros _. apply emits_bind.
    { intros fs0. rewrite compareDirectories_run.
      destruct (compare fs0 A B opts); simpl; repeat constructor;
        by intros (p & r' & [=]). }
    intros res. destruct (diffSet res) as [entries|]; [|apply emits_throw].
    apply emits_bind.
    { intros fs0.
      eapply Forall_impl;
        [apply (emits_for_of_acc entry_event entries (processEntry fuel B D) []
                  (processEntry_entry_events fuel B D))|].
      intros ev Hev (p & r' & ->). exact Hev. }
    intros removed. apply emits_if; [|apply emits_ret].
    apply emits_fs_update. by intros r (p & r' & [=]). }
  destruct (remove_fs fs D) as [e|fs1] eqn:Hr.
  - rewrite (bind_run_fail (remove D) _ fs fs _ _ (fs_update_fail _ _ _ _ Hr)).
    eexists _, []. split; [reflexivity|constructor].
  - rewrite (bind_run_ok (remove D) _ fs fs1 _ _ (fs_update_ok _ _ _ _ Hr)).
    eexists _, _. split; [reflexivity|]. apply Hrest.
Qed.

(** What [createDiff] can fail with: a rejected call, the comparison error,
    the empty result, or an invalid entry that is one of [diffSet].  The
    [throw] for an empty relative file path is never reached. *)
Theorem createDiff_errors (compare : comparator) (fuel : nat)
    (A B D : path) (opts : DiffOptions) (fs : FS) (err : error) :
  result (createDiff compare fuel A B D opts fs) = inl err →
  (∃ c e, err = FsError c e) ∨ (∃ msg, err = ComparisonError msg) ∨
  err = EmptyResult ∨
  (∃ d, err = InvalidEntry d ∧ invalid_entry d = true).
Proof.
  rewrite createDiff_after_reset.
  destruct (result (resetDiffFolder D fs)) as [e|[]] eqn:Hreset.
  { rewrite (bind_fail _ _ _ _ Hreset). simpl. intros [= <-]. left.
    destruct (resetDiffFolder_result D fs) as [(c & e' & H)|H]; [|congruence].
    rewrite Hreset in H. injection H as ->. by eexists _, _. }
  rewrite (bind_ok _ _ _ _ Hreset). simpl.
  set (fs1 := final (resetDiffFolder D fs)).
  pose proof (compareDirectories_run compare A B opts fs1) as Hrun.
  destruct (compare fs1 A B opts) as [msg|r].
  { rewrite (bind_run_fail _ _ _ _ _ _ Hrun). simpl. intros [= <-].
    right; left. by eexists. }
  rewrite (bind_run_ok _ _ _ _ _ _ Hrun). simpl.
  destruct (diffSet r) as [entries|]; [|intros [= <-]; by right; right; left].
  pose proof (build_loop_result fuel B D entries [] fs1) as Hl. simpl in Hl.
  destruct (result (for_of_acc entries (processEntry fuel B D) [] fs1))
    as [e|removed] eqn:Hloop.
  - rewrite (bind_fail _ _ _ _ Hloop). simpl. intros [= <-].
    destruct Hl as [(c & e' & [= ->])|Hl]; [left; by eexists _, _|].
    destruct (List.find invalid_entry entries) as [d|] eqn:Hfind; [|done].
    injection Hl as ->. right; right; right. exists d. split; [done|].
    by apply find_some in Hfind as [_ ?].
  - rewrite (bind_ok _ _ _ _ Hloop). simpl.
    case_bool_decide; [|done].
    match goal with
    | |- context [writeJson ?p ?j ?f] =>
        destruct (fs_update_result (CWriteJson p j)
                    (λ fs, writeJson_fs fs p j) f) as [(c & e & H')|H'];
        fold (writeJson p j) in H'; rewrite H'
    end; [|done].
    intros [= <-]. left. by eexists _, _.
Qed.

Lemma createDiff_errors_witness :
  (∃ c e, FsError (CSymlink "x" ["D"; "d"; "l"]) EEXIST = FsError c e) ∨
  (∃ msg, FsError (CSymlink "x" ["D"; "d"; "l"]) EEXIST = ComparisonError msg) ∨
  FsError (CSymlink "x" ["D"; "d"; "l"]) EEXIST = EmptyResult ∨
  (∃ d, FsError (CSymlink "x" ["D"; "d"; "l"]) EEXIST = InvalidEntry d
        ∧ invalid_entry d = true).
Proof.
  apply (createDiff_errors nested_link_compare 8 ["A"] ["B"] ["D"]
           default_options nested_link_fs).
  vm_compute; reflexivity.
Defined.

Lemma equal_entries_do_nothing (fuel : nat) (B D : path)
    (entries : list Difference) :
  Forall (λ d, state d = StEqual ∧ invalid_entry d = false) entries →
  ∀ acc fs,
    for_of_acc entries (processEntry fuel B D) acc fs
    = Outcome [] fs (inr acc).
Proof.
  induction 1 as [|d rest [Hst Hv] _ IH]; intros acc fs; simpl; [done|].
  assert (processEntry fuel B D d acc fs = Outcome [] fs (inr acc)) as Hd.
  { unfold processEntry. unfold invalid_entry in Hv. rewrite Hv.
    rewrite bool_decide_eq_false_2 by apply posix_join_nonempty.
    by rewrite Hst. }
  rewrite (bind_run_ok _ _ _ _ _ _ Hd). simpl. by rewrite IH.
Qed.

(** When the comparator reports only valid entries in state ["equal"],
    [createDiff] does nothing after it has emptied the diff folder: the
    trace is that of the reset followed by the comparison, the file system
    is the one the reset left, and no manifest is written. *)
Theorem identical_trees_leave_diff_folder_empty (compare : comparator)
    (fuel : nat) (A B D : path) (opts : DiffOptions) (fs : FS)
    (entries : list Difference) :
  let reset := resetDiffFolder D fs in
  result reset = inr tt →
  compare (final reset) A B opts = inr {| diffSet := Some entries |} →
  Forall (λ d, state d = StEqual ∧ invalid_entry d = false) entries →
  createDiff compare fuel A B D opts fs
  = Outcome (trace reset ++ [Compared A B false]) (final reset) (inr tt).
Proof.
  intros reset Hreset Hcmp Hall. rewrite createDiff_after_reset.
  rewrite (bind_ok _ _ _ _ Hreset). fold reset.
  pose proof (compareDirectories_run compare A B opts (final reset)) as Hrun.
  rewrite Hcmp in Hrun.
  rewrite (bind_run_ok _ _ _ _ _ _ Hrun). simpl.
  rewrite (bind_run_ok _ _ _ _ _ _
             (equal_entries_do_nothing fuel B D entries Hall [] (final reset))).
  by simpl.
Qed.

Lemma identical_trees_leave_diff_folder_empty_witness :
  let o := createDiff identical_compare 8 ["A"] ["B"] ["D"] default_options
             identical_fs in
  o = Outcome
        (trace (resetDiffFolder ["D"] identical_fs) ++ [Compared ["A"] ["B"] false])
        (final (resetDiffFolder ["D"] identical_fs)) (inr tt).
Proof.
  apply (identical_trees_leave_diff_folder_empty identical_compare 8
           ["A"] ["B"] ["D"] default_options identical_fs
           [in_root StEqual (Some "same.txt") (Some "same.txt") TFile TFile]).
  - vm_compute; reflexivity.
  - reflexivity.
  - repeat constructor.
Defined.

(* ================================================================== *)
(** * Further properties of [restoreDiff] *)
(* ================================================================== *)



Lemma readJson_pathExists (fs : FS) (p : path) (j : json) :
  readJson_fs fs p = inr j → pathExists_fs fs p = true.
Proof.
  unfold readJson_fs, read_fs, pathExists_fs. by destruct (stat_fs fs p).
Qed.

Lemma pathExists_run (p : path) (fs : FS) :
  pathExists p fs
  = Outcome [Called (CPathExists p) None] fs (inr (pathExists_fs fs p)).
Proof. reflexivity. Qed.

(** A manifest that does not parse: [restoreDiff] fails with the error of
    [readJson] after the existence test, and nothing was touched. *)
Theorem unreadable_manifest_aborts (fuel : nat) (T D : path)
    (mp : option path) (fs : FS) (e : errno) :
  let manifest := metadataPath_of D mp in
  pathExists_fs fs manifest = true →
  readJson_fs fs manifest = inl e →
  restoreDiff fuel T D mp fs
  = Outcome [Called (CPathExists manifest) None;
             Called (CReadJson manifest) (Some e)]
      fs (inl (FsError (CReadJson manifest) e)).
Proof.
  intros manifest Hex Hread. unfold restoreDiff. fold manifest.
  assert (readRemovedItems manifest fs
          = Outcome [Called (CPathExists manifest) None;
                     Called (CReadJson manifest) (Some e)]
              fs (inl (FsError (CReadJson manifest) e))) as Hrun.
  { unfold readRemovedItems.
    rewrite (bind_run_ok _ _ _ _ _ _ (pathExists_run manifest fs)), Hex.
    simpl.
    by rewrite (bind_run_fail (readJson manifest) _ fs fs _ _
                  (fs_query_fail _ _ _ _ Hread)). }
  by rewrite (bind_run_fail _ _ _ _ _ _ Hrun).
Qed.

Lemma unreadable_manifest_aborts_witness :
  restoreDiff 8 ["T"] ["D"] None garbled_manifest_fs
  = Outcome [Called (CPathExists ["D"; METADATA_NAME]) None;
             Called (CReadJson ["D"; METADATA_NAME]) (Some EJSON)]
      garbled_manifest_fs (inl (FsError (CReadJson ["D"; METADATA_NAME]) EJSON)).
Proof.
  apply (unreadable_manifest_aborts 8 ["T"] ["D"] None garbled_manifest_fs EJSON);
    vm_compute; reflexivity.
Defined.

(** [metadata.removed || []]: a manifest that is an object without the
    field [removed], or with a falsy one, asks for no removal: the removal
    phase reads it and changes nothing. *)
Theorem manifest_without_removed_removes_nothing (T D : path)
    (mp : option path) (fs : FS) (fields : list (string * json)) :
  let manifest := metadataPath_of D mp in
  readJson_fs fs manifest = inr (JObj fields) →
  match get_field "removed" fields with
  | Some v => js_truthy v = false
  | None => True
  end →
  removalPhase T D mp fs
  = Outcome [Called (CPathExists manifest) None;
             Called (CReadJson manifest) None] fs (inr tt).
Proof.
  intros manifest Hread Hfield. unfold removalPhase. fold manifest.
  assert (readRemovedItems manifest fs
          = Outcome [Called (CPathExists manifest) None;
                     Called (CReadJson manifest) None]
              fs (inr (JArr []))) as Hrun.
  { unfold readRemovedItems.
    rewrite (bind_run_ok _ _ _ _ _ _ (pathExists_run manifest fs)),
      (readJson_pathExists _ _ _ Hread). simpl.
    rewrite (bind_run_ok (readJson manifest) _ fs fs _ _
               (fs_query_ok _ _ _ _ Hread)). simpl.
    destruct (get_field "removed" fields) as [v|]; [rewrite Hfield|]; done. }
  by rewrite (bind_run_ok _ _ _ _ _ _ Hrun).
Qed.

Lemma manifest_without_removed_removes_nothing_witness :
  removalPhase ["T"] ["D"] None fieldless_manifest_fs
  = Outcome [Called (CPathExists ["D"; METADATA_NAME]) None;
             Called (CReadJson ["D"; METADATA_NAME]) None]
      fieldless_manifest_fs (inr tt).
Proof.
  apply (manifest_without_removed_removes_nothing ["T"] ["D"] None
           fieldless_manifest_fs [("version", JNum 1)]);
    vm_compute; reflexivity.
Defined.

(** ** Links are recreated as links *)

(** A new entry where there was none does not disturb a successful
    resolution that does not follow a final link. *)
Lemma resolve_with_insert_fresh (fs : FS) (c : path) (en : entry)
    (jump jump' : path → list string → errno + path) :
  fs !! c = None →
  (∀ cur todo r, jump cur todo = inr r → jump' cur todo = inr r) →
  ∀ todo cur r,
    resolve_with fs false jump cur todo = inr r →
    resolve_with (<[c := en]> fs) false jump' cur todo = inr r.
Proof.
  intros Hc Hjump todo.
  induction todo as [|seg rest IH]; intros cur r; simpl; [done|].
  destruct (skip_seg seg); [apply IH|].
  destruct (bool_decide (seg = "..")); [apply IH|].
  destruct (decide (cur ++ [seg] = c)) as [Heq|Hne].
  - rewrite Heq, lookup_insert_eq, Hc.
    case_bool_decide as Hrest; [|done]. subst rest. intros [= <-].
    by destruct en.
  - rewrite lookup_insert_ne by done.
    destruct (fs !! (cur ++ [seg])) as [[d0|t|]|]; [done| |apply IH|done].
    simpl. rewrite ?andb_true_r.
    destruct (bool_decide (rest = [])); [done|].
    destruct (bool_decide (t = "")); [done|]. apply Hjump.
Qed.

Lemma resolve_links_insert_fresh (fs : FS) (c : path) (en : entry) (n : nat) :
  fs !! c = None →
  ∀ cur todo r,
    resolve_links fs false n cur todo = inr r →
    resolve_links (<[c := en]> fs) false n cur todo = inr r.
Proof.
  intros Hc. induction n as [|n IH]; intros cur todo r; simpl.
  - by apply resolve_with_insert_fresh.
  - by apply resolve_with_insert_fresh.
Qed.

(** After a successful [symlink], [lstat] finds the link with the target
    string it was given. *)
Lemma symlink_fs_lstat (fs fs' : FS) (t : string) (p : path) :
  symlink_fs fs t p = inr fs' → lstat_fs fs' p = inr (ELink t).
Proof.
  unfold symlink_fs, lstat_fs, resolve.
  destruct (resolve_links fs false MAXSYMLINKS [] p) as [e|c] eqn:Hr; [done|].
  destruct c as [|s c]; cbn [lookup_entry]; [done|].
  destruct (fs !! (s :: c)) eqn:Hl; [done|]. intros [= <-].
  rewrite (resolve_links_insert_fresh fs (s :: c) (ELink t) _ Hl _ _ _ Hr).
  cbn [lookup_entry]. by rewrite lookup_insert_eq.
Qed.

Lemma lstat_readlink_fs (fs : FS) (p : path) (t : string) :
  lstat_fs fs p = inr (ELink t) → readlink_fs fs p = inr t.
Proof. unfold readlink_fs. by intros ->. Qed.

(** When the loop of [createDiff] comes to an added or modified entry that
    is a symbolic link in [B] (whatever [type2] says) and the turn
    succeeds, the diff folder has a link with the same target string at the
    entry's path, and [copy] was not called: the link is not followed. *)
Theorem link_is_copied_as_link (fuel : nat) (sourcePathB targetPath : path)
    (ty : DifferenceType) (t : string) (fs : FS) :
  let o := copyFromB fuel sourcePathB targetPath ty fs in
  lstat_fs fs sourcePathB = inr (ELink t) →
  result o = inr tt →
  lstat_fs (final o) targetPath = inr (ELink t) ∧
  Forall (λ ev, ∀ s d r, ev ≠ Called (CCopy s d) r) (trace o).
Proof.
  intros o Hsrc Hok. subst o. unfold copyFromB in *.
  destruct (ensureDir_fs fs (dirname targetPath)) as [e|fs1] eqn:He.
  { by rewrite (bind_run_fail (ensureDir (dirname targetPath)) _ fs fs _ _
                  (fs_update_fail _ _ _ _ He)) in Hok. }
  rewrite (bind_run_ok (ensureDir (dirname targetPath)) _ fs fs1 _ _
             (fs_update_ok _ _ _ _ He)) in *. simpl in *.
  apply ensureDir_fs_subseteq in He.
  pose proof (lstat_fs_mono _ _ _ _ He Hsrc) as Hsrc1.
  assert (isSymlink sourcePathB fs1
          = Outcome [Called (CLstat sourcePathB) None] fs1 (inr true)) as Hsym.
  { unfold isSymlink, try_catch, bind, lstat, fs_query. by rewrite Hsrc1. }
  rewrite (bind_run_ok _ _ _ _ _ _ Hsym) in *. simpl in *.
  rewrite (bind_run_ok (readlink sourcePathB) _ fs1 fs1 _ _
             (fs_query_ok _ _ _ _ (lstat_readlink_fs _ _ _ Hsrc1))) in *.
  simpl in *. unfold symlink, fs_update in *.
  destruct (symlink_fs fs1 t targetPath) as [e|fs2] eqn:Hs; simpl in *; [done|].
  split; [by eapply symlink_fs_lstat|].
  repeat constructor; intros; discriminate.
Qed.

Lemma link_is_copied_as_link_witness :
  let o := copyFromB 8 ["B"; "link.txt"] ["D"; "link.txt"] TFile
             (<[ ["D"] := EDir ]> relinked_fs) in
  lstat_fs (final o) ["D"; "link.txt"] = inr (ELink "file3.txt") ∧
  Forall (λ ev, ∀ s d r, ev ≠ Called (CCopy s d) r) (trace o).
Proof.
  apply (link_is_copied_as_link 8 ["B"; "link.txt"] ["D"; "link.txt"] TFile
           "file3.txt" (<[ ["D"] := EDir ]> relinked_fs));
    vm_compute; reflexivity.
Defined.



(** ** The loop "Handle Removals" *)

























(** ** Entries of different kinds at the same path *)






